(** * csdiff: the defect correlation queue, the query parser and the JSON
      tree decoders

    A shallow embedding of [linkify.cc] (the [DefQueue] keyed queue, the
    [DefQueryParser] line parser and [main]) and of [parser-json.cc] (the
    format detection in the [JsonParser] constructor, [JsonParser::getNext],
    and the GCC and ShellCheck tree decoders), with the properties the
    design document states about them. *)

From stdpp Require Import gmap strings list fin_maps.
From Stdlib Require Import ZArith Lia Ascii.

Local Open Scope string_scope.
Local Open Scope list_scope.
Local Open Scope nat_scope.

(** How a call ends in the model: it returns, it reaches an operation that
    C++ leaves undefined, or the model's bound on loop rounds is used up
    (which the totality lemmas below exclude). *)
Inductive Run (A : Type) :=
| Returns (a : A)
| Undefined
| OutOfRounds.
Arguments Returns {A} a.
Arguments Undefined {A}.
Arguments OutOfRounds {A}.

(** ** Text helpers shared by both programs *)

Module Text.

(** Value of a decimal digit character, if it is one. *)
Definition digit_of (c : ascii) : option Z :=
  let n := Z.of_nat (nat_of_ascii c) in
  if bool_decide (48 ≤ n ≤ 57)%Z then Some (n - 48)%Z else None.

(** Reads a non-empty run of decimal digits covering the whole string. *)
Fixpoint digits_from (acc : Z) (s : string) : option Z :=
  match s with
  | EmptyString => Some acc
  | String c s' =>
      match digit_of c with
      | Some d => digits_from (10 * acc + d)%Z s'
      | None => None
      end
  end.

Definition unsigned_decimal (s : string) : option Z :=
  match s with
  | EmptyString => None
  | _ => digits_from 0 s
  end.

(** The range of the C++ type [int] (32 bits, two's complement). *)
Definition INT_MIN : Z := (- 2 ^ 31)%Z.
Definition INT_MAX : Z := (2 ^ 31 - 1)%Z.

Definition in_int_range (z : Z) : option Z :=
  if bool_decide (INT_MIN ≤ z ≤ INT_MAX)%Z then Some z else None.

(** An optionally signed decimal numeral that fits an [int]; nothing may
    precede or follow it.  This is what [boost::lexical_cast<int>] accepts
    from a [std::string]; every other text raises [bad_lexical_cast]
    ([None] here). *)
Definition lexical_cast_int (s : string) : option Z :=
  match s with
  | String "-"%char s' => z ← unsigned_decimal s'; in_int_range (- z)
  | String "+"%char s' => z ← unsigned_decimal s'; in_int_range z
  | _ => z ← unsigned_decimal s; in_int_range z
  end.

(** [boost::split(tokens, line, is_any_of(","))] with the default
    [token_compress_off]: every comma ends a token, so a line with [n] commas
    has [n + 1] tokens, empty tokens included. *)
Fixpoint split (sep : ascii) (s : string) : list string :=
  match s with
  | EmptyString => [EmptyString]
  | String c s' =>
      if decide (c = sep) then EmptyString :: split sep s'
      else match split sep s' with
           | tok :: toks => String c tok :: toks
           | [] => [String c EmptyString]
           end
  end.

(** Whether a character occurs in a text. *)
Fixpoint contains (c : ascii) (s : string) : bool :=
  match s with
  | EmptyString => false
  | String a s' => bool_decide (a = c) || contains c s'
  end.

End Text.

(** ** linkify.cc *)

Module Linkify.

(** One message of a defect as [linkify.cc] reads it ([def.msgs[i]]). *)
Record DefMsg := mkDefMsg {
  fileName : string;
  line : Z;
  column : Z;
  msg : string
}.

Record Defect := mkDefect {
  defClass : string;
  msgs : list DefMsg
}.

#[global] Instance DefMsg_eq_dec : EqDecision DefMsg.
Proof. solve_decision. Defined.

#[global] Instance Defect_eq_dec : EqDecision Defect.
Proof. solve_decision. Defined.

Abbreviation TDefList := (list Defect).
Abbreviation TDefByFile := (gmap string (list Defect)).
Abbreviation TDefByClass := (gmap string (gmap string (list Defect))).

(** What [DefQueue::lookup] does to its caller: [Found] is [return true]
    with [dst] written and [stor_] updated, [NotFound] is [return false]
    with [stor_] untouched, and [FrontOfEmpty] is the call [col.front()] on
    an empty list, which C++ leaves undefined. *)
Inductive LookupResult :=
| Found (dst : Defect) (stor' : TDefByClass)
| NotFound
| FrontOfEmpty.

Section DefQueue.

(** [MsgFilter::filterPath], the path normalisation shared by insertion and
    lookup; [csfilter.hh] is not part of the sources at hand, so the
    function is a parameter of the queue. *)
Variable filterPath : string -> string.

(** [DefQueue::hashDefect].  [stor_[k]] and [row[k]] create an empty entry
    when the key is missing; [def.msgs.front()] is undefined on a defect
    without messages ([None]). *)
Definition hashDefect (def : Defect) (stor_ : TDefByClass)
  : option TDefByClass :=
  let row : TDefByFile := default ∅ (stor_ !! defClass def) in
  match msgs def with
  | [] => None
  | msg0 :: _ =>
      let path := filterPath (fileName msg0) in
      let col : TDefList := default [] (row !! path) in
      Some (<[defClass def := <[path := col ++ [def]]> row]> stor_)
  end.

(** [DefQueue::lookup].  The second emptiness test is on [row], as in the
    source, not on [col]. *)
Definition lookup (checker fileName : string) (stor_ : TDefByClass)
  : LookupResult :=
  match stor_ !! checker with
  | None => NotFound
  | Some row =>
      if decide (row = ∅) then NotFound
      else
        let path := filterPath fileName in
        match row !! path with
        | None => NotFound
        | Some col =>
            if decide (row = ∅) then NotFound
            else
              match col with
              | [] => FrontOfEmpty
              | dst :: col' =>
                  if decide (col' = []) then
                    let row' := delete path row in
                    if decide (row' = ∅)
                    then Found dst (delete checker stor_)
                    else Found dst (<[checker := row']> stor_)
                  else Found dst (<[checker := <[path := col']> row]> stor_)
              end
        end
  end.

(** [DefQueue::empty]. *)
Definition empty (stor_ : TDefByClass) : bool := bool_decide (stor_ = ∅).

(** *** Reading the structure *)

(** The defects waiting under an outer and an inner key, oldest first; a
    missing key holds none. *)
Definition queued (stor_ : TDefByClass) (checker path : string) : TDefList :=
  default [] (row ← stor_ !! checker; row !! path).

(** Every key that is present leads to something: a row has at least one
    file name and a file name has at least one defect. *)
Definition pruned (stor_ : TDefByClass) : Prop :=
  ∀ checker (row : TDefByFile), stor_ !! checker = Some row →
    row ≠ ∅ ∧ ∀ path (col : TDefList), row !! path = Some col → col ≠ [].

(** The states a queue goes through: it starts empty and changes by
    [hashDefect] and by a [lookup] that finds something (a failed [lookup]
    leaves it as it was). *)
Inductive reachable : TDefByClass → Prop :=
| reach_init : reachable ∅
| reach_hashDefect def stor_ stor' :
    reachable stor_ → hashDefect def stor_ = Some stor' → reachable stor'
| reach_lookup checker fileName dst stor_ stor' :
    reachable stor_ → lookup checker fileName stor_ = Found dst stor' →
    reachable stor'.

(** The state a successful [lookup] leaves behind, by the three ways the
    source ends: the list keeps defects, the list goes and the row stays, the
    list and the row both go. *)
Definition after_pop (stor_ : TDefByClass) (row : TDefByFile)
    (c p : string) (col' : TDefList) : TDefByClass :=
  if decide (col' = []) then
    if decide (delete p row = ∅) then delete c stor_
    else <[c := delete p row]> stor_
  else <[c := <[p := col']> row]> stor_.

(** The file names a row holds lists for, read through the outer key. *)
Definition inner (stor_ : TDefByClass) (checker path : string)
  : option TDefList := row ← stor_ !! checker; row !! path.

End DefQueue.

(** *** The query parser *)

(** What the program writes to [std::cerr], one constructor per message of
    the source, each with the number it prints. *)
Inductive Diagnostic :=
| NotEnoughCommas (lineno : Z)   (* -:N: error: not enough ',' at the line *)
| FailedToParseCID (lineno : Z)  (* -:N: error: failed to parse CID *)
| LookupFailed (cid : Z)         (* F: warning: defect lookup failed, cid = N *)
| OffsetDetected                 (* F: error: offset detected *)
| FailedToOpen                   (* F: failed to open input file *)
| Undocumented.                  (* WARNING: ... is UNDOCUMENTED ... *)

(** [DefQueryParser::QRow]. *)
Record QRow := mkQRow {
  cid : Z;
  qDefClass : string;
  qFileName : string
}.

(** The parser with the two streams it works on: the lines [std::cin] has
    not delivered yet, the stream's fail bit (what [while (std::cin)] and
    [!std::getline(...)] test), the private members [lineno_] and
    [hasError_], and what has been written to [std::cerr].  [lineno_] is an
    [int] in the source; inputs of 2^31 lines or more are outside this model. *)
Record DefQueryParser := mkParser {
  cin_lines : list string;
  cin_fail : bool;
  lineno_ : Z;
  hasError_ : bool;
  cerr : list Diagnostic
}.

(** The constructor, on a given standard input. *)
Definition DefQueryParser_new (input : list string) : DefQueryParser :=
  mkParser input false 0 false [].

(** [std::getline(std::cin, line)]: delivers the next line, or sets the fail
    bit when there is none. *)
Definition getline (q : DefQueryParser) : option string * DefQueryParser :=
  if cin_fail q then (None, q)
  else
    match cin_lines q with
    | [] => (None, mkParser [] true (lineno_ q) (hasError_ q) (cerr q))
    | ln :: rest =>
        (Some ln, mkParser rest false (lineno_ q) (hasError_ q) (cerr q))
    end.

Definition report (dg : Diagnostic) (q : DefQueryParser) : DefQueryParser :=
  mkParser (cin_lines q) (cin_fail q) (lineno_ q) (hasError_ q)
           (cerr q ++ [dg]).

(** [DefQueryParser::parse]: [None] is [return false], [Some row] is
    [return true] with [dst] written.  The pattern [t0 :: t1 :: t2 :: _] is
    the test [tokens.size() < 3] together with the three subscripts. *)
Definition parse (q : DefQueryParser) : option QRow * DefQueryParser :=
  match getline q with
  | (None, q1) => (None, q1)
  | (Some ln, q1) =>
      let q2 := mkParser (cin_lines q1) (cin_fail q1) (lineno_ q1 + 1)
                         (hasError_ q1) (cerr q1) in
      match Text.split "," ln with
      | t0 :: t1 :: t2 :: _ =>
          match Text.lexical_cast_int t0 with
          | None => (None, report (FailedToParseCID (lineno_ q2)) q2)
          | Some n => (Some (mkQRow n t1 t2), q2)
          end
      | _ => (None, report (NotEnoughCommas (lineno_ q2)) q2)
      end
  end.

Definition set_hasError (q : DefQueryParser) : DefQueryParser :=
  mkParser (cin_lines q) (cin_fail q) (lineno_ q) true (cerr q).

(** The loop of [DefQueryParser::getNext], with a bound on its rounds:
    [None] only when the bound is used up. *)
Fixpoint getNext_loop (rounds : nat) (q : DefQueryParser)
  : option (option QRow * DefQueryParser) :=
  match rounds with
  | O => None
  | S n =>
      if cin_fail q then Some (None, q)
      else
        match parse q with
        | (Some row, q') => Some (Some row, q')
        | (None, q') => getNext_loop n (set_hasError q')
        end
  end.

(** [DefQueryParser::getNext].  Every round takes a line or sets the fail
    bit, so two rounds more than there are lines always suffice
    ([getNext_loop_enough] below); the default is never used. *)
Definition getNext (q : DefQueryParser) : option QRow * DefQueryParser :=
  default (None, q) (getNext_loop (2 + length (cin_lines q)) q).

(** The same parser read line by line, for the statements below: the row
    a line stands for, if any; the message a line without one earns; and
    what a call of [getNext] comes to on a stream that has not failed. *)
Definition line_row (ln : string) : option QRow :=
  match Text.split "," ln with
  | t0 :: t1 :: t2 :: _ => n ← Text.lexical_cast_int t0; Some (mkQRow n t1 t2)
  | _ => None
  end.

Definition line_error (ln : string) (lineno : Z) : Diagnostic :=
  match Text.split "," ln with
  | _ :: _ :: _ :: _ => FailedToParseCID lineno
  | _ => NotEnoughCommas lineno
  end.

Fixpoint scan (lines : list string) (lineno : Z) (hasError : bool)
    (log : list Diagnostic) : option QRow * DefQueryParser :=
  match lines with
  | [] => (None, mkParser [] true lineno true log)
  | ln :: rest =>
      match line_row ln with
      | Some row => (Some row, mkParser rest false (lineno + 1) hasError log)
      | None =>
          scan rest (lineno + 1) true (log ++ [line_error ln (lineno + 1)])
      end
  end.

(** *** main *)

Definition EXIT_FAILURE : Z := 1.

(** What [main] is run on.  [Parser] ([csparser.hh]) is not part of the
    sources at hand: the defects its [getNext] yields from the [.err] file
    and the value of its [hasError()] at the end are taken as given. *)
Record MainInput := mkMainInput {
  argc : Z;
  defListOpens : bool;
  defParserYields : list Defect;
  defParserHasError : bool;
  stdin : list string
}.

(** What [main] writes to [std::cout], without the markup. *)
Inductive Output :=
| Linkified (def : Defect) (cid : Z)   (* linkify(def, cid, ...) *)
| BareCid (row : QRow).                (* linkBareCid(row, ...) *)

(** What a run leaves: the exit status, the output, the rows that found no
    defect in the order they came (the list [unmatched], before [main]
    prints and empties it), the queue at the end, and the query parser with
    what was written to [std::cerr]. *)
Record MainResult := mkMainResult {
  status : Z;
  cout : list Output;
  unmatched : list QRow;
  residual : TDefByClass;
  qParser : DefQueryParser
}.

(** The first loop of [main]: [while (defParser.getNext(&def))
    stor.hashDefect(def)]. *)
Fixpoint hashAll (filterPath : string → string) (defs : list Defect)
    (stor_ : TDefByClass) : option TDefByClass :=
  match defs with
  | [] => Some stor_
  | def :: defs' =>
      stor' ← hashDefect filterPath def stor_; hashAll filterPath defs' stor'
  end.

(** The second loop of [main]: [while (qParser.getNext(row)) ...]. *)
Fixpoint queryLoop (filterPath : string → string) (rounds : nat)
    (q : DefQueryParser) (stor_ : TDefByClass)
    (out : list Output) (unm : list QRow)
  : Run (DefQueryParser * TDefByClass * list Output * list QRow) :=
  match rounds with
  | O => OutOfRounds
  | S n =>
      match getNext q with
      | (None, q') => Returns (q', stor_, out, unm)
      | (Some row, q') =>
          match lookup filterPath (qDefClass row) (qFileName row) stor_ with
          | NotFound =>
              queryLoop filterPath n (report (LookupFailed (cid row)) q')
                        stor_ out (unm ++ [row])
          | Found def stor' =>
              queryLoop filterPath n q' stor'
                        (out ++ [Linkified def (cid row)]) unm
          | FrontOfEmpty => Undefined
          end
      end
  end.

(** [main].  The exit status is the [int] the last [return] converts its
    [bool] to. *)
Definition main (filterPath : string → string) (inp : MainInput)
  : Run MainResult :=
  if decide (argc inp ≠ 4%Z) then
    Returns (mkMainResult EXIT_FAILURE [] [] ∅
               (report Undocumented (DefQueryParser_new (stdin inp))))
  else if negb (defListOpens inp) then
    Returns (mkMainResult EXIT_FAILURE [] [] ∅
               (report FailedToOpen (DefQueryParser_new (stdin inp))))
  else
    match hashAll filterPath (defParserYields inp) ∅ with
    | None => Undefined
    | Some stor0 =>
        match queryLoop filterPath (1 + length (stdin inp))
                (DefQueryParser_new (stdin inp)) stor0 [] [] with
        | OutOfRounds => OutOfRounds
        | Undefined => Undefined
        | Returns (q, stor_, out, unm) =>
            let lookupError := negb (empty stor_) in
            let q' := if lookupError then report OffsetDetected q else q in
            Returns (mkMainResult
                       (Z.b2z (lookupError || hasError_ q'
                               || defParserHasError inp))
                       (out ++ (BareCid <$> unm)) unm stor_ q')
        end
    end.

(** *** Keys and output, for the statements below *)

(** The key [hashDefect] files a defect under: its class and the
    normalised file name of its first message; none for a defect without
    messages. *)
Definition key_of (filterPath : string → string) (def : Defect)
  : option (string * string) :=
  m ← head (msgs def); Some (defClass def, filterPath (fileName m)).

(** The defects [main] has written out linked, in output order. *)
Definition linked_defs (out : list Output) : list Defect :=
  omap (λ o, match o with Linkified def _ => Some def | BareCid _ => None end)
       out.

(** The identifier an output entry carries. *)
Definition out_cid (o : Output) : Z :=
  match o with Linkified _ n => n | BareCid row => cid row end.

(** *** HtWriter *)

(** [boost::algorithm::replace_all(text, search, format)] for a search
    string of one character, which is how [writeEscaped] calls it: every
    occurrence of the character is replaced, and the text put in its place
    is not searched again. *)
Fixpoint replace_all (search : ascii) (format : string) (text : string)
  : string :=
  match text with
  | EmptyString => EmptyString
  | String c rest =>
      if decide (c = search) then format +:+ replace_all search format rest
      else String c (replace_all search format rest)
  end.

Definition amp : ascii := ascii_of_nat 38.
Definition quot : ascii := ascii_of_nat 34.
Definition apos : ascii := ascii_of_nat 39.
Definition lt : ascii := ascii_of_nat 60.
Definition gt : ascii := ascii_of_nat 62.

(** [HtWriter::writeEscaped]: the text it sends to [std::cout]. *)
Definition writeEscaped (text : string) : string :=
  let text := replace_all amp "&amp;" text in
  let text := replace_all quot "&quot;" text in
  let text := replace_all apos "&apos;" text in
  let text := replace_all lt "&lt;" text in
  let text := replace_all gt "&gt;" text in
  text.

(** What one character comes out as. *)
Definition escaped_char (c : ascii) : string :=
  if decide (c = amp) then "&amp;"
  else if decide (c = quot) then "&quot;"
  else if decide (c = apos) then "&apos;"
  else if decide (c = lt) then "&lt;"
  else if decide (c = gt) then "&gt;"
  else String c EmptyString.

(** Reading escaped text back: an entity becomes its character, anything
    else stays. *)
Fixpoint unescape (text : string) : string :=
  match text with
  | EmptyString => EmptyString
  | String c rest =>
      if decide (c = amp) then
        match rest with
        | String "a" (String "m" (String "p" (String ";" r))) =>
            String amp (unescape r)
        | String "q" (String "u" (String "o" (String "t" (String ";" r)))) =>
            String quot (unescape r)
        | String "a" (String "p" (String "o" (String "s" (String ";" r)))) =>
            String apos (unescape r)
        | String "l" (String "t" (String ";" r)) => String lt (unescape r)
        | String "g" (String "t" (String ";" r)) => String gt (unescape r)
        | _ => String c (unescape rest)
        end
      else String c (unescape rest)
  end.

(** *** Sample values *)

(** A defect with one message, told apart by its line number. *)
Definition one_msg_defect (cls file : string) (ln : Z) : Defect :=
  mkDefect cls [mkDefMsg file ln 0 "m"].

(** The normalisation that changes nothing. *)
Definition keep_path (path : string) : string := path.

(** A run with three defects and three query lines: one asks for a queued
    defect, one has no commas, one asks for a class that is not there. *)
Definition sample_run : MainInput :=
  mkMainInput 4 true
    [one_msg_defect "X" "f" 1; one_msg_defect "X" "f" 2;
     one_msg_defect "Y" "g" 3]
    false ["7,X,f"; "no commas"; "8,Z,h"].

End Linkify.

(** ** parser-json.cc *)

Module ParserJson.

(** *** Property trees *)

(** [boost::property_tree::ptree]: a node carries a text and an ordered
    list of named children. *)
#[local] Unset Elimination Schemes.

Inductive ptree := Node (data : string) (children : list (string * ptree)).

Definition data (t : ptree) : string := match t with Node d _ => d end.
Definition children (t : ptree) : list (string * ptree) :=
  match t with Node _ kids => kids end.

(** JSON documents, and the tree [read_json] builds for one: a scalar
    becomes a childless node holding its text, an array a node whose
    children all have the empty name, an object a node with one child per
    member, in document order. *)
Inductive json :=
| JNull
| JBool (b : bool)
| JNumber (text : string)
| JString (text : string)
| JArray (items : list json)
| JObject (members : list (string * json)).

#[local] Set Elimination Schemes.

Fixpoint ptree_of_json (j : json) : ptree :=
  match j with
  | JNull => Node "null" []
  | JBool b => Node (if b then "true" else "false") []
  | JNumber text => Node text []
  | JString text => Node text []
  | JArray items => Node "" (List.map (fun x => ("", ptree_of_json x)) items)
  | JObject members =>
      Node "" (List.map (fun kx => match kx with
                                   | (k, x) => (k, ptree_of_json x)
                                   end) members)
  end.

(** [ptree::find(key)] on the children of a node: the first child of that
    name. *)
Fixpoint find (key : string) (kids : list (string * ptree)) : option ptree :=
  match kids with
  | [] => None
  | (k, t) :: rest => if decide (k = key) then Some t else find key rest
  end.

(** [ptree::empty()]: the node has no children. *)
Definition ptree_empty (t : ptree) : bool :=
  match children t with [] => true | _ => false end.

(** Modelled from the spec: [findChildOf] of [abstract-tree.hh], which the
    source calls as [findChildOf(&dst, node, key)]: whether [node] has a
    child named [key], and that child. *)
Definition findChildOf (node : ptree) (key : string) : option ptree :=
  find key (children node).

(** White space as [std::isspace] sees it in the "C" locale. *)
Definition is_space (c : ascii) : bool :=
  let n := nat_of_ascii c in
  bool_decide (n = 32 ∨ 9 ≤ n ≤ 13)%nat.

Fixpoint skip_ws (s : string) : string :=
  match s with
  | String c s' => if is_space c then skip_ws s' else s
  | EmptyString => EmptyString
  end.

Fixpoint drop_trailing_ws (s : string) : string :=
  match s with
  | EmptyString => EmptyString
  | String c s' =>
      match drop_trailing_ws s' with
      | EmptyString => if is_space c then EmptyString else String c EmptyString
      | r => String c r
      end
  end.

(** How a node's text is read as an [int] (the stream translator behind
    [get_optional<int>]): white space around the numeral is skipped, the
    numeral is an optionally signed decimal that fits an [int], and nothing
    else may follow. *)
Definition int_of_data (s : string) : option Z :=
  Text.lexical_cast_int (drop_trailing_ws (skip_ws s)).

(** Modelled from the spec: [valueOf<T>(node, key, default)] of
    [abstract-tree.hh], the "get optional field with typed default"
    accessor: the value of the child named [key] when there is one and its
    text reads as a [T], the default otherwise. *)
Definition valueOf_string (node : ptree) (key def : string) : string :=
  match find key (children node) with
  | Some child => data child
  | None => def
  end.

Definition valueOf_int (node : ptree) (key : string) (def : Z) : Z :=
  match find key (children node) with
  | Some child => default def (int_of_data (data child))
  | None => def
  end.

(** *** The canonical model *)

(** Modelled from the spec: [DefEvent] and [Defect] of [defect.hh], with
    the members [parser-json.cc] touches; a fresh [DefEvent()] has empty
    texts and [line] and [column] 0, a fresh [Defect(cls)] has no events and
    [cwe] 0. *)
Record DefEvent := mkDefEvent {
  fileName : string;
  line : Z;
  column : Z;
  event : string;
  msg : string
}.

Record Defect := mkDefect {
  defClass : string;
  events : list DefEvent;
  cwe : Z
}.

Definition DefEvent_new : DefEvent := mkDefEvent "" 0 0 "" "".
Definition Defect_new (cls : string) : Defect := mkDefect cls [] 0.

Abbreviation TScanProps := (gmap string string).

(** *** Event readers *)

(** [gccReadEvent]: the event [pEvt] points to as the call leaves it, and
    the returned [bool]. *)
Definition gccReadEvent (pEvt : DefEvent) (evtNode : ptree)
  : bool * DefEvent :=
  (* read kind (error, warning, note) *)
  let evtName := valueOf_string evtNode "kind" "" in
  let e1 := mkDefEvent (fileName pEvt) (line pEvt) (column pEvt) evtName
                       (msg pEvt) in
  if decide (evtName = "") then (false, e1)
  else
    (* read location *)
    let e2 := mkDefEvent "<unknown>" (line e1) (column e1) (event e1)
                         (msg e1) in
    let e3 :=
      match findChildOf evtNode "locations" with
      | Some locs =>
          match children locs with
          | (_, loc0) :: _ =>
              match findChildOf loc0 "caret" with
              | Some caret =>
                  mkDefEvent (valueOf_string caret "file" "<unknown>")
                             (valueOf_int caret "line" 0)
                             (valueOf_int caret "byte-column" 0)
                             (event e2) (msg e2)
              | None => e2
              end
          | [] => e2
          end
      | None => e2
      end in
    (* read message *)
    let e4 := mkDefEvent (fileName e3) (line e3) (column e3) (event e3)
                         (valueOf_string evtNode "message" "<unknown>") in
    (* read -W... if available *)
    let option := valueOf_string evtNode "option" "" in
    let e5 :=
      if decide (option = "") then e4
      else mkDefEvent (fileName e4) (line e4) (column e4) (event e4)
                      (msg e4 +:+ " [" +:+ option +:+ "]") in
    (true, e5).

(** [scReadEvent]. *)
Definition scReadEvent (pEvt : DefEvent) (evtNode : ptree)
  : bool * DefEvent :=
  (* read level (error, warning, note) *)
  let evtName := valueOf_string evtNode "level" "" in
  let e1 := mkDefEvent (fileName pEvt) (line pEvt) (column pEvt) evtName
                       (msg pEvt) in
  if decide (evtName = "") then (false, e1)
  else
    (* read location and message *)
    let e2 := mkDefEvent (valueOf_string evtNode "file" "<unknown>")
                         (valueOf_int evtNode "line" 0)
                         (valueOf_int evtNode "byte-column" 0)
                         (event e1)
                         (valueOf_string evtNode "message" "<unknown>") in
    (* append [SC...] if available *)
    let code := valueOf_string evtNode "code" "" in
    let e3 :=
      if decide (code = "") then e2
      else mkDefEvent (fileName e2) (line e2) (column e2) (event e2)
                      (msg e2 +:+ " [SC" +:+ code +:+ "]") in
    (true, e3).

(** For the statements below: the caret of an event node, found at
    [locations[0].caret]; and the event a child node contributes to a
    defect, if it has a kind. *)
Definition locations0_caret (evtNode : ptree) : option ptree :=
  locs ← findChildOf evtNode "locations";
  loc0 ← head (children locs);
  findChildOf loc0.2 "caret".

Definition child_event (item : string * ptree) : option DefEvent :=
  let '(ok, evt) := gccReadEvent DefEvent_new item.2 in
  if ok then Some evt else None.

(** The defect [GccTreeDecoder::readNode] has assembled from a node when
    it calls the post-processor. *)
Definition gcc_assembled (defNode : ptree) : Defect :=
  mkDefect "COMPILER_WARNING"
    ((gccReadEvent DefEvent_new defNode).2
       :: omap child_event
            (match findChildOf defNode "children" with
             | Some kids => children kids
             | None => []
             end))
    (match findChildOf defNode "metadata" with
     | Some meta => valueOf_int meta "cwe" 0
     | None => 0%Z
     end).

(** The document and the defect of the design document's example. *)
Definition example_document : json :=
  JArray [JObject [("kind", JString "warning");
                   ("locations",
                    JArray [JObject [("caret",
                      JObject [("file", JString "a.c");
                               ("line", JNumber "5");
                               ("byte-column", JNumber "2")])]]);
                   ("message", JString "m");
                   ("option", JString "-Wfoo")]].

Definition example_defect : Defect :=
  mkDefect "COMPILER_WARNING"
           [mkDefEvent "a.c" 5 2 "warning" "m [-Wfoo]"] 0.

(** Two documents with a record in the middle whose kind (level) is
    empty, between two records that have one. *)
Definition gcc_document_with_empty_kind : json :=
  JArray [JObject [("kind", JString "warning")];
          JObject [("kind", JString "")];
          JObject [("kind", JString "error")]].

Definition shellcheck_document_with_empty_level : json :=
  JObject [("comments",
            JArray [JObject [("level", JString "warning")];
                    JObject [("level", JString "")];
                    JObject [("level", JString "error")]])].

(** *** The input stream and the decoders *)

(** What [parser-json.cc] itself writes to [std::cerr]. *)
Inductive Diagnostic :=
| DataError (defNumber : Z) (what : string). (* failed to read defect #N: msg *)

(** Modelled from the spec: [InStream] of [instream.hh], as far as the
    parser uses it: the silent mode, the error flag behind [anyError()], and
    the errors handed to [handleError] with a message and a line (0 when the
    call gives none).  Every [handleError] sets the flag. *)
Record InStream := mkInStream {
  silent : bool;
  anyError : bool;
  handled : list (string * Z)
}.

Definition handleError (input : InStream) : InStream :=
  mkInStream (silent input) true (handled input).

Definition handleError_msg (input : InStream) (what : string) (line : Z)
  : InStream :=
  mkInStream (silent input) true (handled input ++ [(what, line)]).

(** The five decoder classes the constructor chooses from. *)
Inductive DecoderKind :=
| SimpleTreeDecoder       (* csdiff-native JSON format *)
| CovTreeDecoder          (* Coverity JSON format *)
| SarifTreeDecoder        (* SARIF format *)
| ShellCheckTreeDecoder   (* ShellCheck JSON format *)
| GccTreeDecoder.         (* GCC JSON format *)

#[global] Instance DecoderKind_eq_dec : EqDecision DecoderKind.
Proof. solve_decision. Defined.

(** Modelled from the spec: the cursor of [AbstractTreeDecoder]
    ([abstract-tree.hh]) over the defect-bearing collection: [None] before
    [readRoot], then the children not handed out yet.  [readRoot(node)]
    places it on the first child of [node]; [nextNode()] hands out the
    current child and moves on, and yields nothing when the cursor was never
    placed or the children are used up. *)
Definition Cursor : Type := option (list (string * ptree)).

Definition readRoot (node : ptree) : Cursor := Some (children node).

Definition nextNode (cur : Cursor) : option ptree * Cursor :=
  match cur with
  | None => (None, None)
  | Some [] => (None, Some [])
  | Some ((_, node) :: rest) => (Some node, Some rest)
  end.

(** What a call that may throw [pt::ptree_error] comes back with. *)
Inductive Thrown (A : Type) :=
| Value (a : A)
| Throw (what : string).
Arguments Value {A} a.
Arguments Throw {A} what.

Section Decoders.

(** [GccPostProcessor::apply] ([parser-gcc.hh]) is not part of the sources
    at hand; it receives the assembled defect and may rewrite any of it. *)
Variable postProc : Defect → Defect.

(** The three decoders defined in other files ([parser-json-simple.hh],
    [parser-json-cov.hh], [parser-json-sarif.hh]): their state, what
    [readScanProps] followed by [readRoot] does on the document root and the
    chosen node (the scan properties written, whether a [ptree_error] was
    thrown, the state left), and their [readNode] (thrown error or returned
    [bool], the defect written, the state left). *)
Context {Foreign : Type}.
Variable foreignInit :
  DecoderKind → ptree → ptree → TScanProps * option string * Foreign.
Variable foreignReadNode :
  Foreign → Defect → Thrown bool * Defect * Foreign.

(** A decoder object: the two classes of this file with their cursor, or
    one of the other three. *)
Inductive Decoder :=
| Gcc (cur : Cursor)
| ShellCheck (cur : Cursor)
| Other (kind : DecoderKind) (st : Foreign).

Definition kind_of (dec : Decoder) : DecoderKind :=
  match dec with
  | Gcc _ => GccTreeDecoder
  | ShellCheck _ => ShellCheckTreeDecoder
  | Other kind _ => kind
  end.

(** The loop over [children] in [GccTreeDecoder::readNode]: each child is
    read into a fresh event, which is appended when the read succeeds. *)
Definition gccReadChildren (evts : list DefEvent)
    (kids : list (string * ptree)) : list DefEvent :=
  foldl (fun acc item =>
           let '(ok, evt) := gccReadEvent DefEvent_new item.2 in
           if ok then acc ++ [evt] else acc)
        evts kids.

(** [GccTreeDecoder::readNode]: the returned [bool], the defect [def]
    points to afterwards, and the cursor. *)
Definition GccTreeDecoder_readNode (cur : Cursor) (def : Defect)
  : bool * Defect * Cursor :=
  (* move the iterator after we get the current position *)
  match nextNode cur with
  | (None, cur') => (false, def, cur')   (* failed initialization or EOF *)
  | (Some defNode, cur') =>
      (* read key event *)
      let '(ok, keyEvt) := gccReadEvent DefEvent_new defNode in
      let def1 := mkDefect "COMPILER_WARNING" [keyEvt] 0 in
      if negb ok then (false, def1, cur')
      else
        (* read other events if available *)
        let def2 :=
          match findChildOf defNode "children" with
          | Some kids =>
              mkDefect (defClass def1)
                       (gccReadChildren (events def1) (children kids))
                       (cwe def1)
          | None => def1
          end in
        (* read CWE ID if available *)
        let def3 :=
          match findChildOf defNode "metadata" with
          | Some meta =>
              mkDefect (defClass def2) (events def2) (valueOf_int meta "cwe" 0)
          | None => def2
          end in
        (* apply post-processing rules *)
        (true, postProc def3, cur')
  end.

(** [ShellCheckTreeDecoder::readNode]. *)
Definition ShellCheckTreeDecoder_readNode (cur : Cursor) (def : Defect)
  : bool * Defect * Cursor :=
  match nextNode cur with
  | (None, cur') => (false, def, cur')   (* failed initialization or EOF *)
  | (Some defNode, cur') =>
      (* read key event *)
      let '(ok, keyEvt) := scReadEvent DefEvent_new defNode in
      let def1 := mkDefect "SHELLCHECK_WARNING" [keyEvt] 0 in
      if negb ok then (false, def1, cur')
      else (true, postProc def1, cur')
  end.

(** The virtual call [decoder->readNode(def)]. *)
Definition readNode (dec : Decoder) (def : Defect)
  : Thrown bool * Defect * Decoder :=
  match dec with
  | Gcc cur =>
      let '(ok, def', cur') := GccTreeDecoder_readNode cur def in
      (Value ok, def', Gcc cur')
  | ShellCheck cur =>
      let '(ok, def', cur') := ShellCheckTreeDecoder_readNode cur def in
      (Value ok, def', ShellCheck cur')
  | Other kind st =>
      let '(r, def', st') := foreignReadNode st def in
      (r, def', Other kind st')
  end.

(** *** The parser *)

(** [JsonParser::Private]; [decoder] is [None] for the null pointer, and
    [cerr] collects what the parser has written to [std::cerr]. *)
Record Private := mkPrivate {
  input : InStream;
  decoder : option Decoder;
  root : ptree;
  defNumber : Z;
  scanProps : TScanProps;
  cerr : list Diagnostic
}.

(** [JsonParser::Private::dataError]. *)
Definition dataError (d : Private) (what : string) : Private :=
  let inp := handleError (input d) in
  mkPrivate inp (decoder d) (root d) (defNumber d) (scanProps d)
    (if silent inp then cerr d
     else cerr d ++ [DataError (defNumber d) what]).

(** What [read_json(input.str(), d->root)] comes back with: the tree of
    the document, or [pt::file_parser_error] with its message and line. *)
Inductive ReadJson :=
| Parsed (root : ptree)
| ParserError (message : string) (line : Z).

(** The chain of tests in the constructor that recognises the inner format:
    the decoder class to create and the node its [readRoot] is given, or
    [None] where the source throws [ptree_error("unknown JSON format")].
    [first] is the first child of the root. *)
Definition recognize (root first : ptree) : option (DecoderKind * ptree) :=
  match findChildOf root "defects" with
  | Some node => Some (SimpleTreeDecoder, node)
  | None =>
  match findChildOf root "issues" with
  | Some node => Some (CovTreeDecoder, node)
  | None =>
  match findChildOf root "runs" with
  | Some node => Some (SarifTreeDecoder, node)
  | None =>
  match findChildOf root "comments" with
  | Some node => Some (ShellCheckTreeDecoder, node)
  | None =>
  match find "kind" (children first) with
  | Some _ => Some (GccTreeDecoder, root)
  | None => None
  end end end end end.

(** [d->decoder.reset(new ...)], then [readScanProps] and [readRoot(node)]:
    the decoder object, the scan properties, and the [ptree_error] thrown on
    the way if any.  The two decoders of this file inherit both operations:
    no scan properties, the cursor on the first child of [node]. *)
Definition startDecoder (kind : DecoderKind) (root node : ptree)
  : Decoder * TScanProps * option string :=
  match kind with
  | GccTreeDecoder => (Gcc (readRoot node), ∅, None)
  | ShellCheckTreeDecoder => (ShellCheck (readRoot node), ∅, None)
  | _ =>
      let '(props, thrown, st) := foreignInit kind root node in
      (Other kind st, props, thrown)
  end.

(** [JsonParser::JsonParser]. *)
Definition JsonParser_new (input : InStream) (doc : ReadJson) : Private :=
  match doc with
  | ParserError message line =>
      mkPrivate (handleError_msg input message line) None (Node "" []) 0 ∅ []
  | Parsed root =>
      match children root with
      | [] => (* empty JSON, such as [] *)
          mkPrivate input None root 0 ∅ []
      | (_, first) :: _ =>
          match recognize root first with
          | None =>
              mkPrivate (handleError_msg input "unknown JSON format" 0)
                        None root 0 ∅ []
          | Some (kind, node) =>
              let '(dec, props, thrown) := startDecoder kind root node in
              mkPrivate
                (match thrown with
                 | Some what => handleError_msg input what 0
                 | None => input
                 end)
                (Some dec) root 0 props []
          end
      end
  end.

(** [JsonParser::hasError]. *)
Definition hasError (d : Private) : bool := anyError (input d).

(** The error recovery loop of [JsonParser::getNext], with a bound on its
    rounds.  [d->decoder->readNode(def)] on a null [decoder] is undefined. *)
Fixpoint getNext_loop (rounds : nat) (d : Private)
  : Run (bool * Defect * Private) :=
  match rounds with
  | O => OutOfRounds
  | S n =>
      match decoder d with
      | None => Undefined
      | Some dec =>
          (* make sure the Defect structure is properly initialized *)
          let def0 := Defect_new "" in
          (* read the current node and move to the next one *)
          match readNode dec def0 with
          | (Value ok, def, dec') =>
              Returns (ok, def,
                       mkPrivate (input d) (Some dec') (root d)
                                 (if ok then defNumber d + 1 else defNumber d)
                                 (scanProps d) (cerr d))
          | (Throw what, _, dec') =>
              getNext_loop n
                (dataError (mkPrivate (input d) (Some dec') (root d)
                                      (defNumber d) (scanProps d) (cerr d))
                           what)
          end
      end
  end.

(** The loop its callers run, [while (parser.getNext(&def))
    handleDef(def)] in [AbstractWriter::handleFile]: the defects handled, in
    order, and the parser at the end.  [inner] bounds the rounds of each
    [getNext], [rounds] the calls. *)
Fixpoint readAll (inner rounds : nat) (d : Private) (seen : list Defect)
  : Run (list Defect * Private) :=
  match rounds with
  | O => OutOfRounds
  | S n =>
      match getNext_loop inner d with
      | Returns (true, def, d') => readAll inner n d' (seen ++ [def])
      | Returns (false, _, d') => Returns (seen, d')
      | Undefined => Undefined
      | OutOfRounds => OutOfRounds
      end
  end.

End Decoders.

(** *** For the statements below *)

(** The defect [ShellCheckTreeDecoder::readNode] has assembled from a node
    when it calls the post-processor. *)
Definition sc_assembled (defNode : ptree) : Defect :=
  mkDefect "SHELLCHECK_WARNING" [(scReadEvent DefEvent_new defNode).2] 0.

(** A decoder of another file whose [readNode], called on a fresh defect
    again and again, throws the given errors one after the other, going from
    the first state to the second. *)
Inductive throwsInARow {Foreign : Type}
    (foreignReadNode : Foreign → Defect → Thrown bool * Defect * Foreign)
  : Foreign → list string → Foreign → Prop :=
| throws_none st : throwsInARow foreignReadNode st [] st
| throws_more st what def st1 whats st' :
    foreignReadNode st (Defect_new "") = (Throw what, def, st1) →
    throwsInARow foreignReadNode st1 whats st' →
    throwsInARow foreignReadNode st (what :: whats) st'.

(** A stand-in decoder that throws while its counter is positive and then
    reports the end of its sequence. *)
Definition countdown_node (st : nat) (def : Defect)
  : Thrown bool * Defect * nat :=
  match st with
  | O => (Value false, def, O)
  | S n => (Throw "bad record", def, n)
  end.

(** *** Sample values *)

(** The post-processor that changes nothing, and stand-ins for the three
    decoders of other files, which the documents below never reach. *)
Definition keep_defect (def : Defect) : Defect := def.

Definition no_foreign_init (kind : DecoderKind) (root node : ptree)
  : TScanProps * option string * unit := (∅, None, ()).

Definition no_foreign_node (st : unit) (def : Defect)
  : Thrown bool * Defect * unit := (Value false, def, ()).

Definition quiet_stream : InStream := mkInStream false false [].

End ParserJson.


(** * Properties *)

(** ** The correlation queue *)

Section DefQueueFacts.

Import Linkify.

Variable filterPath : string -> string.

Local Abbreviation hashDefect := (Linkify.hashDefect filterPath).
Local Abbreviation lookup := (Linkify.lookup filterPath).
Local Abbreviation reachable := (Linkify.reachable filterPath).

(** *** Insertion *)

Lemma hashDefect_msgs def stor_ m ms :
  msgs def = m :: ms →
  hashDefect def stor_ =
    Some (<[defClass def :=
             <[filterPath (fileName m) :=
                 queued stor_ (defClass def) (filterPath (fileName m)) ++ [def]]>
               (default ∅ (stor_ !! defClass def))]> stor_).
Proof.
  intros Hm. unfold hashDefect, queued. rewrite Hm.
  destruct (stor_ !! defClass def) as [row|]; simpl; [done|].
  by rewrite lookup_empty.
Qed.

Lemma hashDefect_is_Some def stor_ :
  msgs def ≠ [] → is_Some (hashDefect def stor_).
Proof.
  destruct (msgs def) as [|m ms] eqn:Hm; [done|].
  intros _. erewrite hashDefect_msgs by done. eauto.
Qed.

Lemma hashDefect_inv def stor_ stor' :
  hashDefect def stor_ = Some stor' →
  ∃ m ms, msgs def = m :: ms ∧
    stor' = <[defClass def :=
               <[filterPath (fileName m) :=
                   queued stor_ (defClass def) (filterPath (fileName m)) ++ [def]]>
                 (default ∅ (stor_ !! defClass def))]> stor_.
Proof.
  intros H. destruct (msgs def) as [|m ms] eqn:Hm.
  - unfold hashDefect in H. by rewrite Hm in H.
  - exists m, ms. split; [done|].
    erewrite hashDefect_msgs in H by done. by injection H as <-.
Qed.

Lemma queued_insert_same (stor_ : TDefByClass) (row : TDefByFile) c p col :
  queued (<[c := <[p := col]> row]> stor_) c p = col.
Proof. unfold queued. rewrite lookup_insert_eq. simpl. by rewrite lookup_insert_eq. Qed.

Lemma queued_insert_other (stor_ : TDefByClass) c p col c' p' :
  (c', p') ≠ (c, p) →
  queued (<[c := <[p := col]> (default ∅ (stor_ !! c))]> stor_) c' p'
  = queued stor_ c' p'.
Proof.
  intros Hne. unfold queued. destruct (decide (c' = c)) as [->|Hc].
  - rewrite lookup_insert_eq. simpl.
    rewrite lookup_insert_ne by congruence.
    destruct (stor_ !! c); simpl; [done|]. by rewrite lookup_empty.
  - by rewrite lookup_insert_ne.
Qed.

Lemma pruned_empty : pruned ∅.
Proof. intros c row H. by rewrite lookup_empty in H. Qed.

Lemma pruned_default_row (stor_ : TDefByClass) c p (col : TDefList) :
  pruned stor_ → default ∅ (stor_ !! c) !! p = Some col → col ≠ [].
Proof.
  intros Hp. destruct (stor_ !! c) as [row|] eqn:Hc; simpl.
  - intros H. by eapply Hp.
  - by rewrite lookup_empty.
Qed.

Lemma pruned_hashDefect def stor_ stor' :
  pruned stor_ → hashDefect def stor_ = Some stor' → pruned stor'.
Proof.
  intros Hp (m & ms & _ & ->)%hashDefect_inv c row.
  destruct (decide (c = defClass def)) as [->|Hc].
  - rewrite lookup_insert_eq. intros [= <-]. split.
    + apply insert_non_empty.
    + intros p col. destruct (decide (p = filterPath (fileName m))) as [->|Hne].
      * rewrite lookup_insert_eq. intros [= <-]. by destruct (queued _ _ _).
      * rewrite lookup_insert_ne by done. by apply pruned_default_row.
  - rewrite lookup_insert_ne by done. apply Hp.
Qed.

(** *** Lookup *)

Lemma lookup_front (stor_ : TDefByClass) (row : TDefByFile) c f d col' :
  stor_ !! c = Some row → row !! filterPath f = Some (d :: col') →
  lookup c f stor_ = Found d (after_pop stor_ row c (filterPath f) col').
Proof.
  intros Hc Hp. unfold lookup, after_pop. rewrite Hc.
  destruct (decide (row = ∅)) as [->|_]; [by rewrite lookup_empty in Hp|].
  rewrite Hp. by repeat case_decide.
Qed.

Lemma queued_cons_inv (stor_ : TDefByClass) c p d rest :
  queued stor_ c p = d :: rest →
  ∃ row : TDefByFile, stor_ !! c = Some row ∧ row !! p = Some (d :: rest).
Proof.
  unfold queued. destruct (stor_ !! c) as [row|]; simpl; [|done].
  destruct (row !! p) as [col|] eqn:Hp; simpl; [|done].
  intros ->. eauto.
Qed.

Lemma queued_after_pop_same (stor_ : TDefByClass) (row : TDefByFile) c p col' :
  queued (after_pop stor_ row c p col') c p = col'.
Proof.
  unfold after_pop, queued. repeat case_decide; subst.
  - by rewrite lookup_delete_eq.
  - rewrite lookup_insert_eq. simpl. by rewrite lookup_delete_eq.
  - rewrite lookup_insert_eq. simpl. by rewrite lookup_insert_eq.
Qed.

Lemma queued_after_pop_other (stor_ : TDefByClass) (row : TDefByFile)
    c p col' c' p' :
  stor_ !! c = Some row → (c', p') ≠ (c, p) →
  queued (after_pop stor_ row c p col') c' p' = queued stor_ c' p'.
Proof.
  intros Hc Hne. unfold after_pop, queued.
  destruct (decide (c' = c)) as [->|Hcc].
  - assert (p' ≠ p) as Hpp by congruence. rewrite Hc. simpl.
    destruct (decide (col' = [])) as [_|_];
      [destruct (decide (delete p row = ∅)) as [Hrow|_]|].
    + rewrite lookup_delete_eq. simpl.
      assert (delete p row !! p' = None) as Hd by (by rewrite Hrow, lookup_empty).
      rewrite lookup_delete_ne in Hd by done. by rewrite Hd.
    + rewrite lookup_insert_eq. simpl. by rewrite lookup_delete_ne.
    + rewrite lookup_insert_eq. simpl. by rewrite lookup_insert_ne.
  - repeat case_decide; by rewrite ?lookup_delete_ne, ?lookup_insert_ne.
Qed.

(** A key with a waiting defect: [lookup] hands out the oldest one, keeps
    the rest under that key and touches no other key. *)
Lemma lookup_queued_cons stor_ c f d rest :
  queued stor_ c (filterPath f) = d :: rest →
  ∃ stor', lookup c f stor_ = Found d stor' ∧
    queued stor' c (filterPath f) = rest ∧
    ∀ c' p', (c', p') ≠ (c, filterPath f) →
      queued stor' c' p' = queued stor_ c' p'.
Proof.
  intros (row & Hc & Hp)%queued_cons_inv.
  eexists. split; [by eapply lookup_front|]. split.
  - apply queued_after_pop_same.
  - intros c' p' Hne. by apply queued_after_pop_other.
Qed.

Lemma lookup_Found_inv stor_ c f d stor' :
  lookup c f stor_ = Found d stor' →
  ∃ (row : TDefByFile) col', stor_ !! c = Some row ∧
    row !! filterPath f = Some (d :: col') ∧
    stor' = after_pop stor_ row c (filterPath f) col'.
Proof.
  unfold lookup. destruct (stor_ !! c) as [row|] eqn:Hc; [|done].
  destruct (decide (row = ∅)); [done|].
  destruct (row !! filterPath f) as [col|] eqn:Hp; [|done].
  destruct (decide (row = ∅)); [done|].
  destruct col as [|d0 col']; [done|]. intros H.
  exists row, col'. unfold after_pop.
  repeat case_decide; injection H as <- <-; done.
Qed.

(** On a pruned queue a key with nothing waiting is a key that is not
    there, and [lookup] fails without reaching [col.front()]. *)
Lemma lookup_queued_nil stor_ c f :
  pruned stor_ → queued stor_ c (filterPath f) = [] →
  lookup c f stor_ = NotFound.
Proof.
  intros Hpr. unfold queued, lookup.
  destruct (stor_ !! c) as [row|] eqn:Hc; simpl; [|done].
  destruct (decide (row = ∅)); [done|].
  destruct (row !! filterPath f) as [col|] eqn:Hp; simpl; [|done].
  intros ->. by destruct (Hpr c row Hc) as [_ Hcol]; destruct (Hcol _ _ Hp).
Qed.

Lemma pruned_lookup stor_ c f d stor' :
  pruned stor_ → lookup c f stor_ = Found d stor' → pruned stor'.
Proof.
  intros Hpr (row & col' & Hc & Hp & ->)%lookup_Found_inv.
  destruct (Hpr c row Hc) as [_ Hcols].
  unfold after_pop. intros c0 row0.
  destruct (decide (col' = [])) as [_|Hcol'];
    [destruct (decide (delete (filterPath f) row = ∅)) as [_|Hrow']|].
  - intros [_ Hl]%lookup_delete_Some. by apply (Hpr c0).
  - destruct (decide (c0 = c)) as [->|Hne].
    + rewrite lookup_insert_eq. intros [= <-]. split; [done|].
      intros p col [_ Hl]%lookup_delete_Some. by eapply Hcols.
    + rewrite lookup_insert_ne by done. apply Hpr.
  - destruct (decide (c0 = c)) as [->|Hne].
    + rewrite lookup_insert_eq. intros [= <-]. split; [apply insert_non_empty|].
      intros p col. destruct (decide (p = filterPath f)) as [->|Hpp].
      * rewrite lookup_insert_eq. by intros [= <-].
      * rewrite lookup_insert_ne by done. apply Hcols.
    + rewrite lookup_insert_ne by done. apply Hpr.
Qed.

Lemma reachable_pruned stor_ : reachable stor_ → pruned stor_.
Proof.
  induction 1 as [|def s s' _ IH Hh|c f d s s' _ IH Hl].
  - apply pruned_empty.
  - by eapply pruned_hashDefect.
  - by eapply pruned_lookup.
Qed.

(** On a pruned queue, [empty()] says exactly that nothing is waiting. *)
Lemma pruned_empty_iff stor_ :
  pruned stor_ → (empty stor_ = true ↔ ∀ c p, queued stor_ c p = []).
Proof.
  intros Hpr. unfold empty. rewrite bool_decide_eq_true. split.
  - intros -> c p. unfold queued. by rewrite lookup_empty.
  - intros Hq. apply map_empty. intros c.
    destruct (stor_ !! c) as [row|] eqn:Hc; [|done]. exfalso.
    destruct (Hpr c row Hc) as [Hrow Hcols]. apply Hrow, map_empty. intros p.
    destruct (row !! p) as [col|] eqn:Hp; [|done]. exfalso.
    apply (Hcols p col Hp). specialize (Hq c p). unfold queued in Hq.
    rewrite Hc in Hq. simpl in Hq. by rewrite Hp in Hq.
Qed.

(** *** The properties of the queue *)

(** C4, as the code has it.  Two defects [A] and [B] filed in that order
    under one (class, normalised file name) key join the end of that key's
    list in that order, behind whatever was already waiting there; when
    nothing was waiting under the key, the next two lookups with the key
    succeed and return [A] first and [B] second. *)
Theorem fifo_within_key stor_ A B mA msA mB msB f :
  msgs A = mA :: msA → msgs B = mB :: msB →
  defClass B = defClass A →
  filterPath (fileName mB) = filterPath (fileName mA) →
  filterPath f = filterPath (fileName mA) →
  ∃ s1 s2,
    hashDefect A stor_ = Some s1 ∧ hashDefect B s1 = Some s2 ∧
    queued s2 (defClass A) (filterPath f)
      = queued stor_ (defClass A) (filterPath f) ++ [A; B] ∧
    (queued stor_ (defClass A) (filterPath f) = [] →
     ∃ s3 s4,
       lookup (defClass A) f s2 = Found A s3 ∧
       lookup (defClass A) f s3 = Found B s4 ∧
       queued s4 (defClass A) (filterPath f) = []).
Proof.
  intros HA HB Hc HpB Hf.
  eexists _, _. split; [by eapply hashDefect_msgs|].
  split; [by eapply hashDefect_msgs|].
  rewrite Hc, HpB, <- Hf, !queued_insert_same, <- app_assoc. split; [done|].
  set (s2 := <[defClass A := _]> _). intros Hnil.
  assert (queued s2 (defClass A) (filterPath f) = [A; B]) as Hq.
  { unfold s2. by rewrite queued_insert_same, Hnil. }
  destruct (lookup_queued_cons _ _ _ _ _ Hq) as (s3 & Hl3 & Hq3 & _).
  destruct (lookup_queued_cons _ _ _ _ _ Hq3) as (s4 & Hl4 & Hq4 & _).
  by exists s3, s4.
Qed.

(** C5, as the code has it.  Filing a defect [d] always succeeds when [d]
    has a key message.  When nothing was waiting under [d]'s key, the lookup
    that follows with [d]'s class and the file name of its key message
    returns [d] itself and leaves under every key exactly what was waiting
    before [d] was filed, so [d] is gone.  When something was waiting under
    that key, the lookup returns the oldest of those instead and [d] stays
    queued behind the rest. *)
Theorem hashDefect_then_lookup stor_ d m ms :
  msgs d = m :: ms →
  ∃ s1, hashDefect d stor_ = Some s1 ∧
    (queued stor_ (defClass d) (filterPath (fileName m)) = [] →
     ∃ s2, lookup (defClass d) (fileName m) s1 = Found d s2 ∧
       ∀ c p, queued s2 c p = queued stor_ c p) ∧
    (∀ o rest,
       queued stor_ (defClass d) (filterPath (fileName m)) = o :: rest →
       ∃ s2, lookup (defClass d) (fileName m) s1 = Found o s2 ∧
         queued s2 (defClass d) (filterPath (fileName m)) = rest ++ [d]).
Proof.
  intros Hm. eexists. split; [by eapply hashDefect_msgs|].
  set (s1 := <[defClass d := _]> _).
  assert (queued s1 (defClass d) (filterPath (fileName m))
          = queued stor_ (defClass d) (filterPath (fileName m)) ++ [d]) as Hq
    by apply queued_insert_same.
  split.
  - intros Hnil. rewrite Hnil in Hq.
    destruct (lookup_queued_cons _ _ _ _ _ Hq) as (s2 & Hl & Hq2 & Hoth).
    exists s2. split; [done|]. intros c' p'.
    destruct (decide ((c', p') = (defClass d, filterPath (fileName m))))
      as [[= -> ->]|Hne].
    + by rewrite Hq2, Hnil.
    + rewrite Hoth by done. by apply queued_insert_other.
  - intros o rest Hold. rewrite Hold in Hq.
    destruct (lookup_queued_cons _ _ _ _ _ Hq) as (s2 & Hl & Hq2 & _).
    by exists s2.
Qed.

(** C6.  In every state the queue reaches from empty by [hashDefect] and
    [lookup], a key that is present maps to something non-empty (a row with
    at least one file name, a list with at least one defect), and [empty()]
    holds exactly when no defect is queued.  A lookup that takes the last
    defect of a file name leaves that file name absent from the row, and if
    the row held no other file name the class is absent as well. *)
Theorem present_keys_are_non_empty stor_ :
  reachable stor_ →
  pruned stor_ ∧
  (empty stor_ = true ↔ ∀ c p, queued stor_ c p = []) ∧
  (∀ def stor', hashDefect def stor_ = Some stor' →
     reachable stor' ∧ pruned stor') ∧
  (∀ c f d stor', lookup c f stor_ = Found d stor' →
     reachable stor' ∧ pruned stor' ∧
     (queued stor_ c (filterPath f) = [d] →
        inner stor' c (filterPath f) = None) ∧
     (stor_ !! c = Some {[filterPath f := [d]]} → stor' !! c = None)).
Proof.
  intros Hr. pose proof (reachable_pruned _ Hr) as Hpr.
  split; [done|]. split; [by apply pruned_empty_iff|].
  split.
  { intros def stor' Hh. split; [by eapply reach_hashDefect|].
    by eapply pruned_hashDefect. }
  intros c f d stor' Hl.
  assert (reachable stor') as Hr' by (by eapply reach_lookup).
  pose proof (reachable_pruned _ Hr') as Hpr'.
  split; [done|]. split; [done|].
  destruct (lookup_Found_inv _ _ _ _ _ Hl) as (row & col' & Hc & Hp & ->).
  split.
  - unfold queued. rewrite Hc. simpl. rewrite Hp. simpl. intros [= ->].
    unfold inner, after_pop. rewrite decide_True by done.
    case_decide.
    + by rewrite lookup_delete_eq.
    + rewrite lookup_insert_eq. simpl. by rewrite lookup_delete_eq.
  - rewrite Hc. intros [= ->].
    rewrite lookup_singleton_eq in Hp. injection Hp as <-.
    unfold after_pop. rewrite decide_True by done.
    rewrite delete_singleton_eq, decide_True by done.
    by rewrite lookup_delete_eq.
Qed.

End DefQueueFacts.

Section DefQueueSamples.

Import Linkify.

Lemma fifo_within_key_witness :
  ∃ s1 s2,
    hashDefect keep_path (one_msg_defect "X" "f" 1) ∅ = Some s1 ∧
    hashDefect keep_path (one_msg_defect "X" "f" 2) s1 = Some s2 ∧
    queued s2 "X" "f" = [one_msg_defect "X" "f" 1; one_msg_defect "X" "f" 2] ∧
    (queued ∅ "X" "f" = [] →
     ∃ s3 s4,
       lookup keep_path "X" "f" s2 = Found (one_msg_defect "X" "f" 1) s3 ∧
       lookup keep_path "X" "f" s3 = Found (one_msg_defect "X" "f" 2) s4 ∧
       queued s4 "X" "f" = []).
Proof.
  exact (fifo_within_key keep_path ∅ (one_msg_defect "X" "f" 1)
           (one_msg_defect "X" "f" 2) (mkDefMsg "f" 1 0 "m") []
           (mkDefMsg "f" 2 0 "m") [] "f"
           eq_refl eq_refl eq_refl eq_refl eq_refl).
Defined.

(** C4 as stated fails on a queue that already holds a defect under the
    key: with defect 0 waiting under ("X", "f"), filing defects 1 and 2
    under the same key and looking the key up twice returns 0 and then 1,
    not 1 and then 2. *)
Lemma fifo_within_key_needs_free_key :
  ∃ s0 s1 s2 s3 s4,
    hashDefect keep_path (one_msg_defect "X" "f" 0) ∅ = Some s0 ∧
    hashDefect keep_path (one_msg_defect "X" "f" 1) s0 = Some s1 ∧
    hashDefect keep_path (one_msg_defect "X" "f" 2) s1 = Some s2 ∧
    lookup keep_path "X" "f" s2 = Found (one_msg_defect "X" "f" 0) s3 ∧
    lookup keep_path "X" "f" s3 = Found (one_msg_defect "X" "f" 1) s4 ∧
    one_msg_defect "X" "f" 0 ≠ one_msg_defect "X" "f" 1 ∧
    one_msg_defect "X" "f" 1 ≠ one_msg_defect "X" "f" 2.
Proof.
  do 5 eexists. repeat split; try (vm_compute; reflexivity); discriminate.
Qed.

Lemma hashDefect_then_lookup_witness :
  ∃ s1, hashDefect keep_path (one_msg_defect "X" "f" 1) ∅ = Some s1 ∧
    (queued ∅ "X" "f" = [] →
     ∃ s2, lookup keep_path "X" "f" s1 = Found (one_msg_defect "X" "f" 1) s2 ∧
       ∀ c p, queued s2 c p = queued ∅ c p) ∧
    (∀ o rest, queued ∅ "X" "f" = o :: rest →
       ∃ s2, lookup keep_path "X" "f" s1 = Found o s2 ∧
         queued s2 "X" "f" = rest ++ [one_msg_defect "X" "f" 1]).
Proof.
  exact (hashDefect_then_lookup keep_path ∅ (one_msg_defect "X" "f" 1)
           (mkDefMsg "f" 1 0 "m") [] eq_refl).
Defined.

(** C5 as stated fails on a queue that already holds a defect under the
    key: with defect 0 waiting under ("X", "f"), filing defect 1 under the
    same key and looking the key up at once returns defect 0, and defect 1
    is still queued. *)
Lemma hashDefect_then_lookup_returns_oldest :
  ∃ s0 s1 s2,
    hashDefect keep_path (one_msg_defect "X" "f" 0) ∅ = Some s0 ∧
    hashDefect keep_path (one_msg_defect "X" "f" 1) s0 = Some s1 ∧
    lookup keep_path "X" "f" s1 = Found (one_msg_defect "X" "f" 0) s2 ∧
    one_msg_defect "X" "f" 0 ≠ one_msg_defect "X" "f" 1 ∧
    queued s2 "X" "f" = [one_msg_defect "X" "f" 1].
Proof.
  do 3 eexists. repeat split; try (vm_compute; reflexivity); discriminate.
Qed.

Lemma present_keys_are_non_empty_witness :
  let s1 : TDefByClass := {["X" := {["f" := [one_msg_defect "X" "f" 1]]}]} in
  reachable keep_path s1 ∧
  pruned s1 ∧
  (empty s1 = true ↔ ∀ c p, queued s1 c p = []) ∧
  (∀ def stor', hashDefect keep_path def s1 = Some stor' →
     reachable keep_path stor' ∧ pruned stor') ∧
  (∀ c f d stor', lookup keep_path c f s1 = Found d stor' →
     reachable keep_path stor' ∧ pruned stor' ∧
     (queued s1 c (keep_path f) = [d] → inner stor' c (keep_path f) = None) ∧
     (s1 !! c = Some {[keep_path f := [d]]} → stor' !! c = None)).
Proof.
  intros s1.
  assert (reachable keep_path s1) as Hr.
  { apply (reach_hashDefect keep_path (one_msg_defect "X" "f" 1) ∅);
      [apply reach_init | reflexivity]. }
  split; [exact Hr|]. exact (present_keys_are_non_empty keep_path s1 Hr).
Defined.

End DefQueueSamples.

(** ** The query parser *)

Section QueryParserFacts.

Import Linkify.

Lemma parse_line q ln rest :
  cin_fail q = false → cin_lines q = ln :: rest →
  parse q =
    let q1 := mkParser rest false (lineno_ q + 1) (hasError_ q) (cerr q) in
    match line_row ln with
    | Some row => (Some row, q1)
    | None => (None, report (line_error ln (lineno_ q + 1)) q1)
    end.
Proof.
  intros Hf Hl. unfold parse, getline, line_row, line_error.
  rewrite Hf, Hl. simpl.
  destruct (Text.split "," ln) as [|t0 [|t1 [|t2 ts]]]; try done.
  by destruct (Text.lexical_cast_int t0).
Qed.

Lemma parse_eof q :
  cin_fail q = false → cin_lines q = [] →
  parse q = (None, mkParser [] true (lineno_ q) (hasError_ q) (cerr q)).
Proof. intros Hf Hl. unfold parse, getline. by rewrite Hf, Hl. Qed.

(** The loop of [getNext] comes to an end within two rounds more than
    there are lines, and then agrees with the line-by-line reading. *)
Lemma getNext_loop_scan rounds q :
  cin_fail q = false → 2 + length (cin_lines q) ≤ rounds →
  getNext_loop rounds q
  = Some (scan (cin_lines q) (lineno_ q) (hasError_ q) (cerr q)).
Proof.
  revert q. induction rounds as [|n IH]; intros q Hf Hn; [simpl in Hn; lia|].
  simpl. rewrite Hf. destruct (cin_lines q) as [|ln rest] eqn:Hl.
  - rewrite parse_eof by done. simpl.
    destruct n as [|n]; [simpl in Hn; lia|]. done.
  - erewrite parse_line by done. simpl.
    destruct (line_row ln) as [row|]; [done|].
    rewrite IH; [done|done|]. simpl in *. lia.
Qed.

Lemma getNext_scan q :
  cin_fail q = false →
  getNext q = scan (cin_lines q) (lineno_ q) (hasError_ q) (cerr q).
Proof. intros Hf. unfold getNext. by rewrite getNext_loop_scan. Qed.

Lemma getNext_failed q : cin_fail q = true → getNext q = (None, q).
Proof. intros Hf. unfold getNext. simpl. by rewrite Hf. Qed.

(** [getNext] is total: no bound on the rounds is ever used up. *)
Lemma getNext_loop_enough rounds q :
  2 + length (cin_lines q) ≤ rounds → getNext_loop rounds q = Some (getNext q).
Proof.
  intros Hn. destruct (cin_fail q) eqn:Hf.
  - rewrite getNext_failed by done.
    destruct rounds; [simpl in Hn; lia|]. simpl. by rewrite Hf.
  - rewrite getNext_scan by done. by apply getNext_loop_scan.
Qed.

Lemma getNext_bad_line q ln rest :
  cin_fail q = false → cin_lines q = ln :: rest → line_row ln = None →
  getNext q =
    getNext (set_hasError
               (report (line_error ln (lineno_ q + 1))
                  (mkParser rest false (lineno_ q + 1) (hasError_ q) (cerr q)))).
Proof.
  intros Hf Hl Hrow. rewrite !getNext_scan by done.
  rewrite Hl. simpl. by rewrite Hrow.
Qed.

Lemma getNext_good_line q ln rest row :
  cin_fail q = false → cin_lines q = ln :: rest → line_row ln = Some row →
  getNext q =
    (Some row, mkParser rest false (lineno_ q + 1) (hasError_ q) (cerr q)).
Proof.
  intros Hf Hl Hrow. rewrite getNext_scan by done.
  rewrite Hl. simpl. by rewrite Hrow.
Qed.

(** Whatever is left of the stream, a call keeps what was written and a
    flag that was set. *)
Lemma scan_keeps_flag_and_log lines lineno err log r q' :
  scan lines lineno err log = (r, q') →
  (err = true → hasError_ q' = true) ∧ log `prefix_of` cerr q'.
Proof.
  revert lineno err log. induction lines as [|ln rest IH]; intros lineno err log;
    simpl.
  - intros [= <- <-]. by split.
  - destruct (line_row ln).
    + intros [= <- <-]. by split.
    + intros [Hflag Hlog]%IH. split; [intros _; by apply Hflag|].
      etrans; [|done]. by eexists.
Qed.

Lemma getNext_after_bad_line rest number log :
  hasError_ (getNext (mkParser rest false number true log)).2 = true ∧
  log `prefix_of` cerr (getNext (mkParser rest false number true log)).2.
Proof.
  rewrite getNext_scan by done. simpl.
  destruct (scan rest number true log) as [r q'] eqn:Hs.
  apply scan_keeps_flag_and_log in Hs as [Hflag Hlog]. simpl. auto.
Qed.

(** C8.  On the next line [ln] of the query stream, split at every comma:
    with fewer than three fields, or with a first field that is not an
    integer, [parse] returns no query with the line consumed, the line
    counter advanced and the message for the line, carrying the line's
    number, added to [std::cerr]; [getNext] then goes on exactly as it would
    from the state with the line consumed, the message written and
    [hasError_] true, and the state it ends in has [hasError_] true and the
    message written.  Otherwise [getNext] returns the query made of the
    integer in field 0 and of fields 1 and 2 as they are, whatever fields
    follow, with the line consumed, the counter advanced, and the flag and
    [std::cerr] as they were. *)
Theorem query_line_handling q ln rest :
  cin_fail q = false → cin_lines q = ln :: rest →
  let tokens := Text.split "," ln in
  let number := (lineno_ q + 1)%Z in
  (length tokens < 3 →
     parse q
     = (None, mkParser rest false number (hasError_ q)
                       (cerr q ++ [NotEnoughCommas number])) ∧
     getNext q
     = getNext (mkParser rest false number true
                         (cerr q ++ [NotEnoughCommas number])) ∧
     hasError_ (getNext q).2 = true ∧
     cerr q ++ [NotEnoughCommas number] `prefix_of` cerr (getNext q).2) ∧
  (∀ t0, 3 ≤ length tokens → tokens !! 0 = Some t0 →
     Text.lexical_cast_int t0 = None →
     parse q
     = (None, mkParser rest false number (hasError_ q)
                       (cerr q ++ [FailedToParseCID number])) ∧
     getNext q
     = getNext (mkParser rest false number true
                         (cerr q ++ [FailedToParseCID number])) ∧
     hasError_ (getNext q).2 = true ∧
     cerr q ++ [FailedToParseCID number] `prefix_of` cerr (getNext q).2) ∧
  (∀ t0 t1 t2 n, tokens !! 0 = Some t0 → tokens !! 1 = Some t1 →
     tokens !! 2 = Some t2 → Text.lexical_cast_int t0 = Some n →
     parse q
     = (Some (mkQRow n t1 t2),
        mkParser rest false number (hasError_ q) (cerr q)) ∧
     getNext q
     = (Some (mkQRow n t1 t2),
        mkParser rest false number (hasError_ q) (cerr q))).
Proof.
  intros Hf Hl tokens number.
  pose proof (parse_line q ln rest Hf Hl) as Hp.
  pose proof (getNext_bad_line q ln rest Hf Hl) as Hbad.
  pose proof (getNext_good_line q ln rest) as Hgood.
  unfold line_row, line_error, set_hasError, report in *.
  fold tokens in Hp, Hbad, Hgood. simpl in Hp, Hbad. fold number in Hp, Hbad, Hgood.
  assert (∀ dg, getNext q = getNext (mkParser rest false number true
                                               (cerr q ++ [dg])) →
            hasError_ (getNext q).2 = true ∧
            cerr q ++ [dg] `prefix_of` cerr (getNext q).2) as Hend.
  { intros dg ->. apply getNext_after_bad_line. }
  destruct tokens as [|t0 [|t1 [|t2 ts]]]; simpl in *.
  1-3: (split; [intros _; split; [done|]; split; [by apply Hbad|];
                apply Hend; by apply Hbad|]);
       (split; [intros; lia|intros; discriminate]).
  split; [intros; lia|]. split.
  - intros ? _ [= <-] Hc. rewrite Hc in *. simpl in *.
    split; [done|]. split; [by apply Hbad|]. apply Hend. by apply Hbad.
  - intros ? ? ? n [= <-] [= <-] [= <-] Hc. rewrite Hc in *. simpl in *.
    split; [done|by eapply Hgood].
Qed.

(** What [getNext] leaves behind when it returns a row: the stream has not
    failed and is shorter. *)
Lemma scan_Some lines lineno err log row q' :
  scan lines lineno err log = (Some row, q') →
  cin_fail q' = false ∧ length (cin_lines q') < length lines.
Proof.
  revert lineno err log. induction lines as [|ln rest IH]; intros lineno err log;
    simpl; [done|].
  destruct (line_row ln).
  - intros [= _ <-]. simpl. split; [done|lia].
  - intros H. apply IH in H as [? ?]. split; [done|lia].
Qed.

Lemma getNext_Some q row q' :
  getNext q = (Some row, q') →
  cin_fail q' = false ∧ length (cin_lines q') < length (cin_lines q).
Proof.
  destruct (cin_fail q) eqn:Hf.
  - by rewrite getNext_failed.
  - rewrite getNext_scan by done. apply scan_Some.
Qed.

(** The end of the stream is recorded like a line that does not parse: when
    [getNext] finds the stream exhausted, [parse] returns [false] from its
    first test and the loop sets [hasError_]. *)
Lemma scan_None lines lineno err log q' :
  scan lines lineno err log = (None, q') →
  hasError_ q' = true ∧ cin_fail q' = true.
Proof.
  revert lineno err log. induction lines as [|ln rest IH]; intros lineno err log;
    simpl.
  - by intros [= <-].
  - destruct (line_row ln); [done|]. apply IH.
Qed.

Lemma getNext_None q q' :
  cin_fail q = false → getNext q = (None, q') →
  hasError_ q' = true ∧ cin_fail q' = true.
Proof. intros Hf. rewrite getNext_scan by done. apply scan_None. Qed.

End QueryParserFacts.

(** ** main *)

Section MainFacts.

Import Linkify.

Variable filterPath : string -> string.

Lemma lookup_not_undefined stor_ c f :
  pruned stor_ → Linkify.lookup filterPath c f stor_ ≠ FrontOfEmpty.
Proof.
  intros Hpr. destruct (queued stor_ c (filterPath f)) as [|d rest] eqn:Hq.
  - by rewrite (lookup_queued_nil filterPath).
  - destruct (lookup_queued_cons filterPath _ _ _ _ _ Hq) as (s' & -> & _).
    done.
Qed.

Lemma hashAll_reachable defs stor_ :
  Linkify.reachable filterPath stor_ → Forall (λ d, msgs d ≠ []) defs →
  ∃ stor', hashAll filterPath defs stor_ = Some stor' ∧
    Linkify.reachable filterPath stor'.
Proof.
  intros Hr Hall. revert stor_ Hr.
  induction Hall as [|d defs Hd _ IH]; intros stor_ Hr; simpl; [eauto|].
  destruct (hashDefect_is_Some filterPath d stor_ Hd) as [s1 Hs1].
  rewrite Hs1. simpl. apply IH. by eapply reach_hashDefect.
Qed.

(** The query loop returns within one round more than there are lines, on
    every queue the program can have built. *)
Lemma queryLoop_returns rounds q stor_ out unm :
  Linkify.reachable filterPath stor_ → length (cin_lines q) < rounds →
  ∃ q' stor' out' unm',
    queryLoop filterPath rounds q stor_ out unm
    = Returns (q', stor', out', unm') ∧
    Linkify.reachable filterPath stor'.
Proof.
  revert q stor_ out unm.
  induction rounds as [|n IH]; intros q stor_ out unm Hr Hn; [lia|].
  simpl. destruct (getNext q) as [[row|] q'] eqn:Hg; [|by eauto 10].
  apply getNext_Some in Hg as [_ Hlen].
  pose proof (lookup_not_undefined stor_ (qDefClass row) (qFileName row)
                (reachable_pruned _ _ Hr)) as Hnu.
  destruct (Linkify.lookup filterPath (qDefClass row) (qFileName row) stor_)
    as [def stor'| |] eqn:Hl; [| |done].
  - apply IH; [by eapply reach_lookup|lia].
  - apply IH; [done|simpl; lia].
Qed.

(** [main] never returns 0: a run that gets as far as the query loop leaves
    it only after [getNext] has found the stream exhausted, which sets the
    query parser's error flag. *)
Lemma queryLoop_sets_hasError rounds q stor_ out unm q' stor' out' unm' :
  cin_fail q = false →
  queryLoop filterPath rounds q stor_ out unm = Returns (q', stor', out', unm') →
  hasError_ q' = true.
Proof.
  revert q stor_ out unm. induction rounds as [|n IH]; intros q stor_ out unm Hf;
    simpl; [done|].
  destruct (getNext q) as [[row|] q1] eqn:Hg.
  - apply getNext_Some in Hg as [Hf1 _].
    destruct (Linkify.lookup _ _ _ _); [by apply IH|by apply IH|done].
  - intros [= <- _ _ _]. by apply getNext_None in Hg as [? _].
Qed.

Lemma main_status_non_zero inp r :
  main filterPath inp = Returns r → status r = 1%Z.
Proof.
  unfold main. destruct (decide _); [by intros [= <-]|].
  destruct (defListOpens inp); simpl negb; cbv iota; [|by intros [= <-]].
  destruct (hashAll filterPath (defParserYields inp) ∅) as [stor0|]; [|done].
  destruct (queryLoop filterPath (1 + length (stdin inp))
              (DefQueryParser_new (stdin inp)) stor0 [] [])
    as [[[[q stor_] out] unm]| |] eqn:Hq; [|done|done].
  apply queryLoop_sets_hasError in Hq; [|done].
  intros [= <-]. simpl.
  destruct (empty stor_); simpl; rewrite ?Hq; simpl; by rewrite ?orb_true_r.
Qed.

End MainFacts.

Section MainSamples.

Import Linkify.

(** C2, on the code.  A run in which nothing goes wrong: the arguments are
    four, the input file opens and yields one defect without a parser error,
    and the only query line parses and claims that defect.  There is no
    fatal error, no unmatched query, no unclaimed defect, no line or record
    error and nothing on [std::cerr]; the exit status is 1 all the same,
    because the query parser's [hasError_] is set when [getNext] finds the
    stream exhausted. *)
Lemma clean_run_exits_non_zero :
  let inp := mkMainInput 4 true [one_msg_defect "X" "f" 1] false ["1,X,f"] in
  ∃ r, main keep_path inp = Returns r ∧
    status r = 1%Z ∧
    cout r = [Linkified (one_msg_defect "X" "f" 1) 1] ∧
    unmatched r = [] ∧
    residual r = ∅ ∧
    cerr (qParser r) = [] ∧
    line_row "1,X,f" = Some (mkQRow 1 "X" "f") ∧
    defParserHasError inp = false ∧
    hasError_ (qParser r) = true.
Proof.
  intros inp. eexists. split; [vm_compute; reflexivity|].
  repeat split.
Qed.

End MainSamples.

Section QueryParserSamples.

Import Linkify.

Lemma query_line_handling_witness :
  getNext (DefQueryParser_new ["not-an-int,CLASS,file.c"; "7,X,f.c,extra"])
  = (Some (mkQRow 7 "X" "f.c"), mkParser [] false 2 true [FailedToParseCID 1])
  ∧
  parse (DefQueryParser_new ["1,X"])
  = (None, mkParser [] false 1 false [NotEnoughCommas 1]) ∧
  hasError_ (getNext (DefQueryParser_new ["1,X"])).2 = true ∧
  [NotEnoughCommas 1] `prefix_of` cerr (getNext (DefQueryParser_new ["1,X"])).2.
Proof.
  destruct (query_line_handling
              (DefQueryParser_new ["not-an-int,CLASS,file.c"; "7,X,f.c,extra"])
              "not-an-int,CLASS,file.c" ["7,X,f.c,extra"] eq_refl eq_refl)
    as (_ & Hcid & _).
  destruct (Hcid "not-an-int") as (_ & Hnext & _);
    [vm_compute; lia|reflexivity|reflexivity|].
  destruct (query_line_handling
              (mkParser ["7,X,f.c,extra"] false 1 true [FailedToParseCID 1])
              "7,X,f.c,extra" [] eq_refl eq_refl) as (_ & _ & Hgood).
  destruct (Hgood "7" "X" "f.c" 7%Z eq_refl eq_refl eq_refl eq_refl)
    as (_ & Hrow).
  destruct (proj1 (query_line_handling (DefQueryParser_new ["1,X"]) "1,X" []
                     eq_refl eq_refl)) as (Hp & _ & Hflag & Hlog);
    [vm_compute; lia|].
  split; [exact (eq_trans Hnext Hrow)|].
  split; [exact Hp|]. split; [exact Hflag|exact Hlog].
Defined.

End QueryParserSamples.

(** ** The JSON parser *)

Section ParserJsonFacts.

Import ParserJson.

Context {Foreign : Type}.
Variable postProc : Defect → Defect.
Variable foreignInit :
  DecoderKind → ptree → ptree → TScanProps * option string * Foreign.
Variable foreignReadNode : Foreign → Defect → Thrown bool * Defect * Foreign.

Local Abbreviation JsonParser_new := (ParserJson.JsonParser_new foreignInit).
Local Abbreviation getNext_loop :=
  (ParserJson.getNext_loop postProc foreignReadNode).
Local Abbreviation readAll := (ParserJson.readAll postProc foreignReadNode).

(** *** Events *)

Lemma gccReadEvent_no_kind pEvt evtNode :
  valueOf_string evtNode "kind" "" = "" →
  gccReadEvent pEvt evtNode
  = (false, mkDefEvent (fileName pEvt) (line pEvt) (column pEvt) ""
                       (msg pEvt)).
Proof. intros Hk. unfold gccReadEvent. by rewrite Hk. Qed.

Lemma gccReadEvent_kind pEvt evtNode :
  valueOf_string evtNode "kind" "" ≠ "" →
  ∃ evt, gccReadEvent pEvt evtNode = (true, evt) ∧
    event evt = valueOf_string evtNode "kind" "".
Proof.
  intros Hk. unfold gccReadEvent. rewrite decide_False by done.
  eexists. split; [done|].
  destruct (findChildOf evtNode "locations") as [locs|]; simpl.
  - destruct (children locs) as [|[? loc0] ?]; simpl.
    + by destruct (decide _).
    + destruct (findChildOf loc0 "caret"); simpl; by destruct (decide _).
  - by destruct (decide _).
Qed.

Lemma child_event_no_kind item :
  valueOf_string item.2 "kind" "" = "" → child_event item = None.
Proof. intros Hk. unfold child_event. by rewrite gccReadEvent_no_kind. Qed.

Lemma child_event_kind item :
  valueOf_string item.2 "kind" "" ≠ "" →
  child_event item = Some (gccReadEvent DefEvent_new item.2).2.
Proof.
  intros Hk. unfold child_event.
  by destruct (gccReadEvent_kind DefEvent_new _ Hk) as (evt & -> & _).
Qed.

(** The loop over the children appends the events of the children that
    have a kind, in their order. *)
Lemma gccReadChildren_omap evts kids :
  gccReadChildren evts kids = evts ++ omap child_event kids.
Proof.
  unfold gccReadChildren. revert evts.
  induction kids as [|item kids IH]; intros evts; simpl.
  - by rewrite app_nil_r.
  - rewrite IH. unfold child_event.
    destruct (gccReadEvent DefEvent_new item.2) as [[] evt]; simpl; [|done].
    by rewrite <- app_assoc.
Qed.

(** *** One record *)

Lemma GccTreeDecoder_readNode_kind k defNode rest def0 :
  valueOf_string defNode "kind" "" ≠ "" →
  GccTreeDecoder_readNode postProc (Some ((k, defNode) :: rest)) def0
  = (true, postProc (gcc_assembled defNode), Some rest).
Proof.
  intros Hk. unfold GccTreeDecoder_readNode, gcc_assembled. simpl.
  destruct (gccReadEvent_kind DefEvent_new _ Hk) as (evt & -> & _). simpl.
  destruct (findChildOf defNode "children") as [kids|]; simpl;
    [rewrite gccReadChildren_omap|];
    by destruct (findChildOf defNode "metadata").
Qed.

Lemma GccTreeDecoder_readNode_no_kind k defNode rest def0 :
  valueOf_string defNode "kind" "" = "" →
  GccTreeDecoder_readNode postProc (Some ((k, defNode) :: rest)) def0
  = (false, mkDefect "COMPILER_WARNING" [DefEvent_new] 0, Some rest).
Proof.
  intros Hk. unfold GccTreeDecoder_readNode. simpl.
  by rewrite gccReadEvent_no_kind.
Qed.

Lemma scReadEvent_no_level pEvt evtNode :
  valueOf_string evtNode "level" "" = "" →
  scReadEvent pEvt evtNode
  = (false, mkDefEvent (fileName pEvt) (line pEvt) (column pEvt) ""
                       (msg pEvt)).
Proof. intros Hk. unfold scReadEvent. by rewrite Hk. Qed.

Lemma ShellCheckTreeDecoder_readNode_no_level k defNode rest def0 :
  valueOf_string defNode "level" "" = "" →
  ShellCheckTreeDecoder_readNode postProc (Some ((k, defNode) :: rest)) def0
  = (false, mkDefect "SHELLCHECK_WARNING" [DefEvent_new] 0, Some rest).
Proof.
  intros Hk. unfold ShellCheckTreeDecoder_readNode. simpl.
  by rewrite scReadEvent_no_level.
Qed.

(** With one of the two decoders of this file, [getNext] takes one round:
    their [readNode] throws nothing. *)
Lemma getNext_loop_Gcc rounds (d : Private) cur :
  decoder d = Some (Gcc cur) →
  getNext_loop (S rounds) d =
    let '(ok, def, cur') :=
      GccTreeDecoder_readNode postProc cur (Defect_new "") in
    Returns (ok, def,
             mkPrivate (input d) (Some (Gcc cur')) (root d)
                       (if ok then (defNumber d + 1)%Z else defNumber d)
                       (scanProps d) (cerr d)).
Proof.
  intros Hd. simpl. rewrite Hd. simpl.
  by destruct (GccTreeDecoder_readNode _ _ _) as [[ok def] cur'].
Qed.

Lemma getNext_loop_ShellCheck rounds (d : Private) cur :
  decoder d = Some (ShellCheck cur) →
  getNext_loop (S rounds) d =
    let '(ok, def, cur') :=
      ShellCheckTreeDecoder_readNode postProc cur (Defect_new "") in
    Returns (ok, def,
             mkPrivate (input d) (Some (ShellCheck cur')) (root d)
                       (if ok then (defNumber d + 1)%Z else defNumber d)
                       (scanProps d) (cerr d)).
Proof.
  intros Hd. simpl. rewrite Hd. simpl.
  by destruct (ShellCheckTreeDecoder_readNode _ _ _) as [[ok def] cur'].
Qed.

(** *** The sequence of defects *)

Lemma readAll_S inner rounds (d : Private) seen :
  readAll inner (S rounds) d seen =
    match getNext_loop inner d with
    | Returns (true, def, d') => readAll inner rounds d' (seen ++ [def])
    | Returns (false, _, d') => Returns (seen, d')
    | Undefined => Undefined
    | OutOfRounds => OutOfRounds
    end.
Proof. done. Qed.

(** The GCC decoder on records that all have a kind, followed by one whose
    kind is empty: the loop of the callers handles the defects of the
    former, and the [false] that [getNext] returns for the latter ends it
    with the cursor behind that record, the error flag as it was and the
    records after it unread. *)
Lemma readAll_Gcc_empty_kind inner rounds (d : Private) pre k bad post seen :
  decoder d = Some (Gcc (Some (pre ++ (k, bad) :: post))) →
  Forall (λ item, valueOf_string item.2 "kind" "" ≠ "") pre →
  valueOf_string bad "kind" "" = "" →
  length pre < rounds →
  readAll (S inner) rounds d seen
  = Returns (seen ++ ((λ item, postProc (gcc_assembled item.2)) <$> pre),
             mkPrivate (input d) (Some (Gcc (Some post))) (root d)
                       (defNumber d + Z.of_nat (length pre))%Z (scanProps d)
                       (cerr d)).
Proof.
  intros Hd Hpre Hbad. revert d rounds seen Hd.
  induction Hpre as [|[k0 n0] pre Hk0 _ IH]; intros d rounds seen Hd Hn;
    (destruct rounds as [|n]; [simpl in Hn; lia|]);
    rewrite readAll_S, (getNext_loop_Gcc _ _ _ Hd); simpl app.
  - rewrite GccTreeDecoder_readNode_no_kind by done. simpl.
    by rewrite app_nil_r, Z.add_0_r.
  - rewrite GccTreeDecoder_readNode_kind by done.
    rewrite IH; [|done|simpl in Hn; lia]. simpl.
    rewrite <- app_assoc. do 3 f_equal. lia.
Qed.

(** C1, on the code.  In the GCC document and in the ShellCheck document
    whose second of three records has an empty kind (level), the loop of the
    callers handles the defect of the first record and then ends: [getNext]
    returns [false] for the second record as it does at the end of the
    sequence, no error is flagged, and the third record, which has a kind
    (level), is left unread behind the cursor. *)
Theorem empty_kind_ends_the_sequence stream inner rounds :
  (∃ d' : Private,
     readAll (S inner) (S (S rounds))
       (JsonParser_new stream
          (Parsed (ptree_of_json gcc_document_with_empty_kind))) []
     = Returns ([postProc
                   (mkDefect "COMPILER_WARNING"
                      [mkDefEvent "<unknown>" 0 0 "warning" "<unknown>"] 0)],
                d') ∧
     input d' = stream ∧ cerr d' = [] ∧
     decoder d'
     = Some (Gcc (Some [("", ptree_of_json
                               (JObject [("kind", JString "error")]))]))) ∧
  (∃ d' : Private,
     readAll (S inner) (S (S rounds))
       (JsonParser_new stream
          (Parsed (ptree_of_json shellcheck_document_with_empty_level))) []
     = Returns ([postProc
                   (mkDefect "SHELLCHECK_WARNING"
                      [mkDefEvent "<unknown>" 0 0 "warning" "<unknown>"] 0)],
                d') ∧
     input d' = stream ∧ cerr d' = [] ∧
     decoder d'
     = Some (ShellCheck
               (Some [("", ptree_of_json
                             (JObject [("level", JString "error")]))]))).
Proof. split; eexists; (split; [reflexivity|done]). Qed.

(** C7, on the code.  For a document whose root has no children, as [[]]
    and [{}] have, the constructor reports no error and creates no decoder;
    the first [getNext] then calls [readNode] through the null [decoder],
    which is undefined, instead of returning [false]. *)
Theorem empty_document_has_no_decoder stream text inner rounds :
  let d : Private := JsonParser_new stream (Parsed (Node text [])) in
  ptree_of_json (JArray []) = Node "" [] ∧
  ptree_of_json (JObject []) = Node "" [] ∧
  input d = stream ∧
  decoder d = None ∧
  getNext_loop (S inner) d = Undefined ∧
  readAll (S inner) (S rounds) d [] = Undefined.
Proof. done. Qed.

(** C10.  For a record of the GCC decoder whose own kind is not empty,
    [getNext] returns [true] with the post-processed defect made of the key
    event followed by the events of the children that have a kind, in
    document order, flags no error and moves to the next record; a child
    without a kind contributes no event, a child with one contributes its
    event.  When the record's own kind is empty [getNext] returns [false]. *)
Theorem children_without_kind_are_skipped (d : Private) k defNode rest inner :
  decoder d = Some (Gcc (Some ((k, defNode) :: rest))) →
  let kids := match findChildOf defNode "children" with
              | Some node => children node
              | None => []
              end in
  (valueOf_string defNode "kind" "" ≠ "" →
     ∃ keyEvt cwe (d' : Private),
       gccReadEvent DefEvent_new defNode = (true, keyEvt) ∧
       getNext_loop (S inner) d
       = Returns (true,
                  postProc (mkDefect "COMPILER_WARNING"
                              (keyEvt :: omap child_event kids) cwe),
                  d') ∧
       input d' = input d ∧ cerr d' = cerr d ∧
       decoder d' = Some (Gcc (Some rest))) ∧
  (valueOf_string defNode "kind" "" = "" →
     ∃ def (d' : Private),
       getNext_loop (S inner) d = Returns (false, def, d') ∧
       input d' = input d ∧ cerr d' = cerr d) ∧
  (∀ item, valueOf_string item.2 "kind" "" = "" → child_event item = None) ∧
  (∀ item, valueOf_string item.2 "kind" "" ≠ "" →
     child_event item = Some (gccReadEvent DefEvent_new item.2).2) ∧
  (∀ before item after, child_event item = None →
     omap child_event (before ++ item :: after)
     = omap child_event (before ++ after)).
Proof.
  intros Hd kids. repeat split.
  - intros Hk. destruct (gccReadEvent_kind DefEvent_new _ Hk) as (evt & He & _).
    exists evt. do 2 eexists. split; [done|].
    rewrite (getNext_loop_Gcc _ _ _ Hd).
    rewrite GccTreeDecoder_readNode_kind by done.
    unfold gcc_assembled. rewrite He. simpl. fold kids. done.
  - intros Hk. do 2 eexists.
    rewrite (getNext_loop_Gcc _ _ _ Hd).
    by rewrite GccTreeDecoder_readNode_no_kind by done.
  - apply child_event_no_kind.
  - apply child_event_kind.
  - intros before item after Hi. rewrite !omap_app. simpl. by rewrite Hi.
Qed.

(** *** Format detection *)

Lemma JsonParser_new_recognized stream root k first rest :
  children root = (k, first) :: rest →
  kind_of <$> decoder (JsonParser_new stream (Parsed root))
  = fst <$> recognize root first.
Proof.
  intros Hc. unfold ParserJson.JsonParser_new. rewrite Hc.
  destruct (recognize root first) as [[kind node]|]; [|done].
  unfold startDecoder.
  destruct kind; simpl; try done;
    by destruct (foreignInit _ root node) as [[props thrown] st].
Qed.

(** C3, as the code has it.  For a root with at least one child the
    constructor creates the decoder of the first marker that is present, in
    the order "defects" (native), "issues" (Coverity), "runs" (SARIF),
    "comments" (ShellCheck), then "kind" in the first child (GCC); with none
    of them it creates no decoder and hands the error "unknown JSON format"
    to the input stream, which sets its error flag.  The parser holds at
    most one decoder.  For a root without children it creates no decoder and flags
    nothing. *)
Theorem format_detection stream root :
  let d : Private := JsonParser_new stream (Parsed root) in
  (children root = [] → decoder d = None ∧ input d = stream) ∧
  (∀ k first rest, children root = (k, first) :: rest →
     kind_of <$> decoder d = fst <$> recognize root first ∧
     (is_Some (findChildOf root "defects") →
        kind_of <$> decoder d = Some SimpleTreeDecoder) ∧
     (findChildOf root "defects" = None →
      is_Some (findChildOf root "issues") →
        kind_of <$> decoder d = Some CovTreeDecoder) ∧
     (findChildOf root "defects" = None → findChildOf root "issues" = None →
      is_Some (findChildOf root "runs") →
        kind_of <$> decoder d = Some SarifTreeDecoder) ∧
     (findChildOf root "defects" = None → findChildOf root "issues" = None →
      findChildOf root "runs" = None →
      is_Some (findChildOf root "comments") →
        kind_of <$> decoder d = Some ShellCheckTreeDecoder) ∧
     (findChildOf root "defects" = None → findChildOf root "issues" = None →
      findChildOf root "runs" = None → findChildOf root "comments" = None →
      is_Some (find "kind" (children first)) →
        kind_of <$> decoder d = Some GccTreeDecoder) ∧
     (findChildOf root "defects" = None → findChildOf root "issues" = None →
      findChildOf root "runs" = None → findChildOf root "comments" = None →
      find "kind" (children first) = None →
        decoder d = None ∧ hasError d = true ∧
        handled (input d)
        = handled stream ++ [("unknown JSON format", 0%Z)])).
Proof.
  intros d. split.
  - intros Hc. unfold d, ParserJson.JsonParser_new. by rewrite Hc.
  - intros k first rest Hc.
    pose proof (JsonParser_new_recognized stream root k first rest Hc) as Hk.
    fold d in Hk. split; [done|]. rewrite Hk. unfold recognize.
    repeat split.
    + intros [node Hn]. by rewrite Hn.
    + intros H1 [node Hn]. by rewrite H1, Hn.
    + intros H1 H2 [node Hn]. by rewrite H1, H2, Hn.
    + intros H1 H2 H3 [node Hn]. by rewrite H1, H2, H3, Hn.
    + intros H1 H2 H3 H4 [node Hn]. by rewrite H1, H2, H3, H4, Hn.
    + unfold d, ParserJson.JsonParser_new, recognize. rewrite Hc.
      by rewrite H, H0, H1, H2, H3.
    + unfold d, ParserJson.JsonParser_new, recognize. rewrite Hc.
      by rewrite H, H0, H1, H2, H3.
    + unfold d, ParserJson.JsonParser_new, recognize. rewrite Hc.
      by rewrite H, H0, H1, H2, H3.
Qed.

(** *** The field mapping of the GCC decoder *)

(** C9.  The example document decodes to exactly one defect, the
    post-processor's image of the defect of class "COMPILER_WARNING" with
    the single event (warning, a.c, 5, 2, "m [-Wfoo]"), and so to that defect
    itself under a post-processor that leaves it as it is; no error is
    flagged.  In general an event node with a kind is read into an event of
    that kind whose file name is "<unknown>" and whose line and column are 0
    when the node has no [locations[0].caret], or when the caret lacks the
    field; whose message is "<unknown>" when the node has none; and whose
    message ends in the option in brackets when the option is not empty. *)
Theorem gcc_field_mapping stream inner rounds :
  (∃ d' : Private,
     readAll (S inner) (S (S rounds))
       (JsonParser_new stream (Parsed (ptree_of_json example_document))) []
     = Returns ([postProc example_defect], d') ∧
     input d' = stream) ∧
  (postProc example_defect = example_defect →
   ∃ d' : Private,
     readAll (S inner) (S (S rounds))
       (JsonParser_new stream (Parsed (ptree_of_json example_document))) []
     = Returns ([example_defect], d') ∧
     input d' = stream) ∧
  (∀ evtNode, valueOf_string evtNode "kind" "" ≠ "" →
     ∃ evt, gccReadEvent DefEvent_new evtNode = (true, evt) ∧
       event evt = valueOf_string evtNode "kind" "" ∧
       (locations0_caret evtNode = None →
          fileName evt = "<unknown>" ∧ line evt = 0%Z ∧ column evt = 0%Z) ∧
       (∀ caret, locations0_caret evtNode = Some caret →
          (find "file" (children caret) = None → fileName evt = "<unknown>") ∧
          (find "line" (children caret) = None → line evt = 0%Z) ∧
          (find "byte-column" (children caret) = None → column evt = 0%Z)) ∧
       (find "message" (children evtNode) = None →
          valueOf_string evtNode "message" "<unknown>" = "<unknown>") ∧
       (valueOf_string evtNode "option" "" = "" →
          msg evt = valueOf_string evtNode "message" "<unknown>") ∧
       (valueOf_string evtNode "option" "" ≠ "" →
          msg evt = valueOf_string evtNode "message" "<unknown>"
                    +:+ " [" +:+ valueOf_string evtNode "option" "" +:+ "]")).
Proof.
  split; [|split].
  - eexists. split; reflexivity.
  - intros <-. eexists. split; reflexivity.
  - intros evtNode Hk. unfold gccReadEvent. rewrite decide_False by done.
    eexists. split; [reflexivity|]. unfold locations0_caret.
    destruct (decide (valueOf_string evtNode "option" "" = "")) as [Ho|Ho];
      (destruct (findChildOf evtNode "locations") as [locs|]; simpl;
       [destruct (children locs) as [|[? loc0] ?]; simpl;
        [|destruct (findChildOf loc0 "caret") as [caret|]; simpl]|]);
      repeat split; simpl; try done;
      try (match goal with H : Some _ = Some _ |- _ => injection H as <- end);
      unfold valueOf_string, valueOf_int; by intros ->.
Qed.

End ParserJsonFacts.

Section ParserJsonSamples.

Import ParserJson.

(** C3 as stated fails on a root without children: none of the five
    markers is there, and yet no error is flagged and nothing is printed; no
    decoder is selected. *)
Lemma empty_root_is_no_format_error :
  let root := ptree_of_json (JArray []) in
  let d := ParserJson.JsonParser_new no_foreign_init quiet_stream (Parsed root) in
  findChildOf root "defects" = None ∧ findChildOf root "issues" = None ∧
  findChildOf root "runs" = None ∧ findChildOf root "comments" = None ∧
  head (children root) = None ∧
  decoder d = None ∧ hasError d = false ∧ handled (input d) = [] ∧
  cerr d = [].
Proof. done. Qed.

Lemma format_detection_witness :
  let root := ptree_of_json example_document in
  let d := ParserJson.JsonParser_new no_foreign_init quiet_stream (Parsed root) in
  kind_of <$> decoder d = Some GccTreeDecoder.
Proof.
  intros root d.
  destruct (format_detection no_foreign_init quiet_stream root) as [_ H].
  destruct (H "" (ptree_of_json
                    (JObject [("kind", JString "warning");
                              ("locations",
                               JArray [JObject [("caret",
                                 JObject [("file", JString "a.c");
                                          ("line", JNumber "5");
                                          ("byte-column", JNumber "2")])]]);
                              ("message", JString "m");
                              ("option", JString "-Wfoo")])) [] eq_refl)
    as (_ & _ & _ & _ & _ & Hgcc & _).
  apply Hgcc; try reflexivity. by eexists.
Defined.

Lemma gcc_field_mapping_witness :
  (∃ d' : Private,
     ParserJson.readAll keep_defect no_foreign_node 1 2
       (ParserJson.JsonParser_new no_foreign_init quiet_stream
          (Parsed (ptree_of_json example_document))) []
     = Returns ([example_defect], d') ∧
     input d' = quiet_stream) ∧
  ∃ evt,
    gccReadEvent DefEvent_new (ptree_of_json (JObject [("kind", JString "note")]))
    = (true, evt) ∧
    fileName evt = "<unknown>" ∧ line evt = 0%Z ∧ column evt = 0%Z ∧
    msg evt = "<unknown>".
Proof.
  destruct (gcc_field_mapping keep_defect no_foreign_init no_foreign_node
              quiet_stream 0 0) as (_ & Hex & Hgen).
  split; [exact (Hex eq_refl)|].
  destruct (Hgen (ptree_of_json (JObject [("kind", JString "note")])))
    as (evt & He & _ & Hloc & _ & _ & Hmsg & _); [discriminate|].
  exists evt. split; [exact He|].
  destruct (Hloc eq_refl) as (-> & -> & ->).
  repeat split. exact (Hmsg eq_refl).
Defined.

Lemma children_without_kind_are_skipped_witness :
  let child_ok := ptree_of_json (JObject [("kind", JString "note")]) in
  let child_bad := ptree_of_json (JObject [("message", JString "lost")]) in
  let defNode :=
    Node "" [("kind", Node "error" []);
             ("children", Node "" [("", child_bad); ("", child_ok)])] in
  let d : Private :=
    mkPrivate quiet_stream (Some (Gcc (Some [("", defNode)]))) (Node "" [])
              0 ∅ [] in
  ∃ keyEvt cwe (d' : Private),
    gccReadEvent DefEvent_new defNode = (true, keyEvt) ∧
    ParserJson.getNext_loop keep_defect no_foreign_node 1 d
    = Returns (true,
               mkDefect "COMPILER_WARNING"
                 [keyEvt; mkDefEvent "<unknown>" 0 0 "note" "<unknown>"] cwe,
               d') ∧
    input d' = quiet_stream ∧ cerr d' = [] ∧
    decoder d' = Some (Gcc (Some [])).
Proof.
  intros child_ok child_bad defNode d.
  destruct (children_without_kind_are_skipped keep_defect no_foreign_node
              d "" defNode [] 0 eq_refl) as (H & _).
  apply H. discriminate.
Defined.

End ParserJsonSamples.

(** * Further properties *)

(** ** The queue as one list per key *)

Section DefQueueByKey.

Import Linkify.

Variable filterPath : string -> string.

Local Abbreviation hashDefect := (Linkify.hashDefect filterPath).
Local Abbreviation lookup := (Linkify.lookup filterPath).
Local Abbreviation reachable := (Linkify.reachable filterPath).
Local Abbreviation key_of := (Linkify.key_of filterPath).
Local Abbreviation hashAll := (Linkify.hashAll filterPath).

Lemma key_of_msgs def m ms :
  msgs def = m :: ms →
  key_of def = Some (defClass def, filterPath (fileName m)).
Proof. intros Hm. unfold Linkify.key_of. by rewrite Hm. Qed.

Lemma hashDefect_queued def stor_ stor' c p :
  hashDefect def stor_ = Some stor' →
  queued stor' c p
  = queued stor_ c p ++ (if decide (key_of def = Some (c, p)) then [def] else []).
Proof.
  intros (m & ms & Hm & ->)%hashDefect_inv.
  rewrite (key_of_msgs _ _ _ Hm). case_decide as Hk.
  - injection Hk as <- <-. apply queued_insert_same.
  - rewrite app_nil_r. apply queued_insert_other. congruence.
Qed.

Lemma lookup_Found_queued stor_ c f d stor' :
  lookup c f stor_ = Found d stor' →
  queued stor_ c (filterPath f) = d :: queued stor' c (filterPath f) ∧
  ∀ c' p', (c', p') ≠ (c, filterPath f) →
    queued stor' c' p' = queued stor_ c' p'.
Proof.
  intros (row & col' & Hc & Hp & ->)%lookup_Found_inv. split.
  - rewrite queued_after_pop_same. unfold queued. rewrite Hc. simpl.
    by rewrite Hp.
  - intros c' p' Hne. by apply queued_after_pop_other.
Qed.

(** X1.  Read as one list of defects per key, the queue changes in one
    place at a time: [hashDefect] appends the defect to the list of its own
    key and leaves every other list as it was, and a [lookup] that succeeds
    takes the first defect of the list of the key asked for and leaves every
    other list as it was. *)
Theorem operations_touch_one_key stor_ :
  (∀ def stor' c p, hashDefect def stor_ = Some stor' →
     queued stor' c p
     = queued stor_ c p
       ++ (if decide (key_of def = Some (c, p)) then [def] else [])) ∧
  (∀ c f d stor', lookup c f stor_ = Found d stor' →
     queued stor_ c (filterPath f) = d :: queued stor' c (filterPath f) ∧
     ∀ c' p', (c', p') ≠ (c, filterPath f) →
       queued stor' c' p' = queued stor_ c' p').
Proof.
  split.
  - intros def stor' c p. apply hashDefect_queued.
  - intros c f d stor'. apply lookup_Found_queued.
Qed.

(** X2.  On every queue the program can have built, [lookup] fails exactly
    when no defect is queued under the key, and it never calls
    [col.front()] on an empty list: the second [row.empty()] test of the
    source, which stands where a test of [col] would, is never the one that
    decides. *)
Theorem lookup_fails_iff_nothing_queued stor_ c f :
  reachable stor_ →
  (lookup c f stor_ = NotFound ↔ queued stor_ c (filterPath f) = []) ∧
  lookup c f stor_ ≠ FrontOfEmpty.
Proof.
  intros Hpr%reachable_pruned.
  destruct (queued stor_ c (filterPath f)) as [|d rest] eqn:Hq.
  - rewrite (lookup_queued_nil filterPath) by done. done.
  - destruct (lookup_queued_cons filterPath _ _ _ _ _ Hq) as (s' & -> & _).
    done.
Qed.

Lemma hashAll_queued defs stor_ stor' c p :
  hashAll defs stor_ = Some stor' →
  queued stor' c p
  = queued stor_ c p ++ filter (λ def, key_of def = Some (c, p)) defs.
Proof.
  revert stor_. induction defs as [|def defs IH]; intros stor_; simpl.
  - intros [= <-]. by rewrite app_nil_r.
  - destruct (Linkify.hashDefect filterPath def stor_) as [s1|] eqn:Hh;
      simpl; [|done].
    intros H. rewrite (IH _ H), (hashDefect_queued _ _ _ _ _ Hh).
    rewrite <- app_assoc. f_equal. rewrite filter_cons. by case_decide.
Qed.

Lemma hashAll_is_Some defs stor_ :
  is_Some (hashAll defs stor_) ↔ Forall (λ def, msgs def ≠ []) defs.
Proof.
  revert stor_. induction defs as [|def defs IH]; intros stor_; simpl.
  - split; [by constructor|by eauto].
  - rewrite Forall_cons. destruct (msgs def) as [|m ms] eqn:Hm.
    + unfold Linkify.hashDefect. rewrite Hm. simpl. split.
      * by intros [? ?].
      * by intros [? _].
    + erewrite hashDefect_msgs by done. simpl. rewrite IH.
      split; [by split|by intros [_ ?]].
Qed.

Lemma hashAll_Some_reachable defs stor_ stor' :
  hashAll defs stor_ = Some stor' → reachable stor_ → reachable stor'.
Proof.
  revert stor_. induction defs as [|def defs IH]; intros stor_; simpl.
  - by intros [= <-].
  - destruct (Linkify.hashDefect filterPath def stor_) as [s1|] eqn:Hh;
      simpl; [|done].
    intros H Hr. eapply IH; [done|]. by eapply reach_hashDefect.
Qed.

(** X3.  Filing a list of defects one after the other succeeds exactly when
    each of them has a message, and then every key holds, behind what it
    held before, the defects of the list that belong to it, in the order of
    the list. *)
Theorem hashAll_files_by_key defs stor_ :
  (is_Some (hashAll defs stor_) ↔ Forall (λ def, msgs def ≠ []) defs) ∧
  (∀ stor', hashAll defs stor_ = Some stor' →
     reachable stor_ → reachable stor') ∧
  (∀ stor' c p, hashAll defs stor_ = Some stor' →
     queued stor' c p
     = queued stor_ c p ++ filter (λ def, key_of def = Some (c, p)) defs).
Proof.
  split; [apply hashAll_is_Some|]. split.
  - intros stor'. apply hashAll_Some_reachable.
  - intros stor' c p. apply hashAll_queued.
Qed.

End DefQueueByKey.

(** ** The query stream, call by call *)

Section QueryStreamFacts.

Import Linkify.

Lemma scan_Some_omap lines lineno err log row q' :
  scan lines lineno err log = (Some row, q') →
  omap line_row lines = row :: omap line_row (cin_lines q').
Proof.
  revert lineno err log. induction lines as [|ln rest IH]; intros lineno err log;
    simpl; [done|].
  destruct (line_row ln) as [r|]; [by intros [= -> <-]|]. apply IH.
Qed.

Lemma scan_None_omap lines lineno err log q' :
  scan lines lineno err log = (None, q') → omap line_row lines = [].
Proof.
  revert lineno err log. induction lines as [|ln rest IH]; intros lineno err log;
    simpl; [done|].
  destruct (line_row ln) as [r|]; [done|]. apply IH.
Qed.

Lemma getNext_Some_omap q row q' :
  getNext q = (Some row, q') →
  omap line_row (cin_lines q) = row :: omap line_row (cin_lines q').
Proof.
  destruct (cin_fail q) eqn:Hf.
  - by rewrite getNext_failed.
  - rewrite getNext_scan by done. apply scan_Some_omap.
Qed.

Lemma getNext_None_omap q q' :
  cin_fail q = false → getNext q = (None, q') →
  omap line_row (cin_lines q) = [].
Proof. intros Hf. rewrite getNext_scan by done. apply scan_None_omap. Qed.

(** The messages a run of lines without a row earns, the first of them
    numbered [lineno + 1]. *)
Lemma scan_bad_run bad lines lineno err log :
  Forall (λ ln, line_row ln = None) bad →
  scan (bad ++ lines) lineno err log
  = scan lines (lineno + Z.of_nat (length bad))
      (err || bool_decide (bad ≠ []))
      (log ++ imap (λ i ln, line_error ln (lineno + Z.of_nat i + 1)) bad).
Proof.
  intros Hbad. revert lineno err log.
  induction Hbad as [|ln bad Hln _ IH]; intros lineno err log.
  - simpl. by rewrite Z.add_0_r, orb_false_r, app_nil_r.
  - simpl. rewrite Hln, IH. f_equal.
    + lia.
    + by rewrite orb_true_r.
    + rewrite <- app_assoc. simpl. do 2 f_equal; [f_equal; lia|].
      apply imap_ext. intros i x _. simpl. f_equal. lia.
Qed.

(** X4.  One call of [getNext] on a stream that has not failed passes over
    any run of lines that give no query, writes one message for each with
    the line's own number and sets the error flag if there was any, and
    returns the query of the first line that gives one, with that line
    consumed.  When no line is left that gives a query, it consumes them
    all, returns end of stream, and has the error flag set whether or not
    any line was bad. *)
Theorem getNext_skips_bad_lines q bad :
  cin_fail q = false →
  Forall (λ ln, line_row ln = None) bad →
  let log := cerr q ++ imap (λ i ln, line_error ln (lineno_ q + Z.of_nat i + 1))
                            bad in
  (∀ ln rest row, cin_lines q = bad ++ ln :: rest → line_row ln = Some row →
     getNext q
     = (Some row,
        mkParser rest false (lineno_ q + Z.of_nat (length bad) + 1)
                 (hasError_ q || bool_decide (bad ≠ [])) log)) ∧
  (cin_lines q = bad →
     getNext q
     = (None, mkParser [] true (lineno_ q + Z.of_nat (length bad)) true log)).
Proof.
  intros Hf Hbad log. split.
  - intros ln rest row Hl Hrow. rewrite getNext_scan by done.
    rewrite Hl, scan_bad_run by done. simpl. by rewrite Hrow.
  - intros Hl. rewrite getNext_scan by done.
    rewrite <- (app_nil_r (cin_lines q)), Hl, scan_bad_run by done. done.
Qed.

End QueryStreamFacts.

(** ** What main does with the defects and the queries *)

Section MainMoreFacts.

Import Linkify.

Variable filterPath : string -> string.

Local Abbreviation lookup := (Linkify.lookup filterPath).
Local Abbreviation key_of := (Linkify.key_of filterPath).
Local Abbreviation queryLoop := (Linkify.queryLoop filterPath).
Local Abbreviation main := (Linkify.main filterPath).

Lemma linked_defs_app out1 out2 :
  linked_defs (out1 ++ out2) = linked_defs out1 ++ linked_defs out2.
Proof. apply omap_app. Qed.

Lemma linked_defs_BareCid unm : linked_defs (BareCid <$> unm) = [].
Proof. by induction unm. Qed.

(** Through the query loop, the defects of a key that were read are the
    ones written out linked followed by the ones still queued. *)
Lemma queryLoop_conserves defs rounds q stor_ out unm q' stor' out' unm' :
  (∀ c p, filter (λ def, key_of def = Some (c, p)) defs
          = filter (λ def, key_of def = Some (c, p)) (linked_defs out)
            ++ queued stor_ c p) →
  queryLoop rounds q stor_ out unm = Returns (q', stor', out', unm') →
  ∀ c p, filter (λ def, key_of def = Some (c, p)) defs
         = filter (λ def, key_of def = Some (c, p)) (linked_defs out')
           ++ queued stor' c p.
Proof.
  revert q stor_ out unm.
  induction rounds as [|n IH]; intros q stor_ out unm Hinv; simpl; [done|].
  destruct (getNext q) as [[row|] q1]; [|by intros [= _ <- <- _]].
  destruct (Linkify.lookup filterPath (qDefClass row) (qFileName row) stor_)
    as [d s1| |] eqn:Hl; [| |done].
  - apply IH. intros c p.
    destruct (lookup_Found_queued filterPath _ _ _ _ _ Hl) as [Hq Hoth].
    assert (key_of d = Some (qDefClass row, filterPath (qFileName row)))
      as Hk.
    { pose proof (Hinv (qDefClass row) (filterPath (qFileName row))) as Hi.
      rewrite Hq in Hi.
      assert (d ∈ filter (λ def, key_of def
                = Some (qDefClass row, filterPath (qFileName row))) defs)
        as Hin by (rewrite Hi; set_solver).
      by apply list_elem_of_filter in Hin as [? _]. }
    rewrite linked_defs_app, filter_app, <- app_assoc, Hinv. f_equal.
    simpl. rewrite filter_cons, filter_nil.
    destruct (decide ((c, p) = (qDefClass row, filterPath (qFileName row))))
      as [[= -> ->]|Hne].
    + by rewrite decide_True, Hq by done.
    + rewrite decide_False by congruence. simpl. by rewrite Hoth.
  - by apply IH.
Qed.

(** X5.  Whatever the queries are, no defect is lost, invented or linked
    twice: when [main] gets through both loops, the defects read for a key
    are, in the order they were read, first the ones it has written out
    linked for that key and then the ones left in the queue under it. *)
Theorem main_conserves_defects inp r c p :
  argc inp = 4%Z → defListOpens inp = true →
  main inp = Returns r →
  filter (λ def, key_of def = Some (c, p)) (defParserYields inp)
  = filter (λ def, key_of def = Some (c, p)) (linked_defs (cout r))
    ++ queued (residual r) c p.
Proof.
  intros Hargc Hopen. unfold Linkify.main.
  rewrite decide_False, Hopen by (by intros ?). simpl negb. cbv iota.
  destruct (hashAll filterPath (defParserYields inp) ∅) as [stor0|] eqn:Hh;
    [|done].
  destruct (Linkify.queryLoop filterPath (1 + length (stdin inp))
              (DefQueryParser_new (stdin inp)) stor0 [] [])
    as [[[[q stor_] out] unm]| |] eqn:Hq; [|done|done].
  intros [= <-]. simpl.
  rewrite linked_defs_app, linked_defs_BareCid, app_nil_r.
  eapply queryLoop_conserves; [|done].
  intros c' p'. simpl. rewrite (hashAll_queued filterPath _ _ _ _ _ Hh).
  unfold queued. by rewrite lookup_empty.
Qed.

(** Each row the query parser returns ends up once in the output. *)
Lemma queryLoop_answers_each_row rounds q stor_ out unm q' stor' out' unm' :
  cin_fail q = false →
  queryLoop rounds q stor_ out unm = Returns (q', stor', out', unm') →
  ∃ linked fresh,
    out' = out ++ linked ∧ unm' = unm ++ fresh ∧
    Forall (λ o, ∃ def n, o = Linkified def n) linked ∧
    (out_cid <$> linked) ++ (cid <$> fresh)
      ≡ₚ cid <$> omap line_row (cin_lines q) ∧
    fresh `sublist_of` omap line_row (cin_lines q).
Proof.
  revert q stor_ out unm.
  induction rounds as [|n IH]; intros q stor_ out unm Hf; simpl; [done|].
  destruct (getNext q) as [[row|] q1] eqn:Hg.
  - pose proof (getNext_Some_omap _ _ _ Hg) as ->.
    apply getNext_Some in Hg as [Hf1 _].
    destruct (Linkify.lookup filterPath (qDefClass row) (qFileName row) stor_)
      as [d s1| |]; [| |done].
    + intros (linked & fresh & -> & -> & Hall & Hperm & Hsub)%IH; [|done].
      exists (Linkified d (cid row) :: linked), fresh.
      rewrite <- app_assoc. repeat split; [|by simpl; f_equiv|by constructor].
      constructor; [by eauto|done].
    + intros (linked & fresh & -> & -> & Hall & Hperm & Hsub)%IH; [|done].
      simpl in Hperm, Hsub. exists linked, (row :: fresh).
      rewrite <- app_assoc. repeat split; [done| |by constructor].
      simpl. by rewrite <- Permutation_middle, Hperm.
  - intros [= _ _ <- <-]. rewrite (getNext_None_omap _ _ Hf Hg).
    exists [], []. by rewrite !app_nil_r.
Qed.

(** X6.  When [main] gets through both loops, every line of the query
    stream that gives a query is answered exactly once: the output is a run
    of linked defects followed by one bare entry for each unmatched query,
    the identifiers it carries are those of the queries up to order, and the
    unmatched queries keep the order of the stream. *)
Theorem main_answers_each_query inp r :
  argc inp = 4%Z → defListOpens inp = true →
  main inp = Returns r →
  ∃ linked,
    cout r = linked ++ (BareCid <$> unmatched r) ∧
    Forall (λ o, ∃ def n, o = Linkified def n) linked ∧
    out_cid <$> cout r ≡ₚ cid <$> omap line_row (stdin inp) ∧
    unmatched r `sublist_of` omap line_row (stdin inp).
Proof.
  intros Hargc Hopen. unfold Linkify.main.
  rewrite decide_False, Hopen by (by intros ?). simpl negb. cbv iota.
  destruct (hashAll filterPath (defParserYields inp) ∅) as [stor0|]; [|done].
  destruct (Linkify.queryLoop filterPath (1 + length (stdin inp))
              (DefQueryParser_new (stdin inp)) stor0 [] [])
    as [[[[q stor_] out] unm]| |] eqn:Hq; [|done|done].
  apply queryLoop_answers_each_row in Hq
    as (linked & fresh & -> & -> & Hall & Hperm & Hsub); [|done].
  intros [= <-]. simpl in *. exists linked. repeat split; [done| |done].
  rewrite fmap_app, <- list_fmap_compose. by rewrite <- Hperm.
Qed.

(** X7.  [main] comes to an end on every input: it returns when each defect
    read has a message and otherwise reaches [front()] on an empty vector;
    and whenever it returns, the exit status is 1, because the call of
    [getNext] that finds the query stream exhausted sets the parser's error
    flag.  No run exits with 0. *)
Theorem main_never_exits_zero inp :
  main inp ≠ OutOfRounds ∧
  (Forall (λ def, msgs def ≠ []) (defParserYields inp) →
     ∃ r, main inp = Returns r) ∧
  (∀ r, main inp = Returns r → status r = 1%Z).
Proof.
  split; [|split].
  - unfold Linkify.main. case_decide; [done|].
    destruct (defListOpens inp); simpl negb; cbv iota; [|done].
    destruct (hashAll filterPath (defParserYields inp) ∅) as [stor0|] eqn:Hh;
      [|done].
    assert (Linkify.reachable filterPath stor0) as Hr.
    { eapply (hashAll_Some_reachable filterPath); [done|apply reach_init]. }
    destruct (queryLoop_returns filterPath (1 + length (stdin inp))
                (DefQueryParser_new (stdin inp)) stor0 [] [] Hr)
      as (q & stor_ & out & unm & -> & _); [simpl; lia|done].
  - intros Hall. unfold Linkify.main. case_decide; [by eauto|].
    destruct (defListOpens inp); simpl negb; cbv iota; [|by eauto].
    destruct (hashAll_reachable filterPath _ ∅ (reach_init filterPath) Hall)
      as (stor0 & -> & Hr).
    destruct (queryLoop_returns filterPath (1 + length (stdin inp))
                (DefQueryParser_new (stdin inp)) stor0 [] [] Hr)
      as (q & stor_ & out & unm & -> & _); [simpl; lia|by eauto].
  - apply main_status_non_zero.
Qed.

(** The query loop on queries that ask for the queued defects one by one
    in the order they were filed. *)
Lemma queryLoop_in_order defs lines :
  Forall2 (λ def ln, ∃ n m ms, msgs def = m :: ms ∧
             line_row ln = Some (mkQRow n (defClass def) (fileName m)))
          defs lines →
  ∀ rounds q stor_ out unm,
    cin_fail q = false → cin_lines q = lines → pruned stor_ →
    (∀ c p, queued stor_ c p
            = filter (λ def, key_of def = Some (c, p)) defs) →
    length lines < rounds →
    queryLoop rounds q stor_ out unm
    = Returns (mkParser [] true (lineno_ q + Z.of_nat (length lines)) true
                        (cerr q),
               ∅,
               out ++ zip_with (λ def row, Linkified def (cid row)) defs
                               (omap line_row lines),
               unm).
Proof.
  induction 1 as [|def ln defs lines (n & m & ms & Hm & Hrow) _ IH];
    intros rounds q stor_ out unm Hf Hl Hpr Hq Hn;
    (destruct rounds as [|k]; [simpl in Hn; lia|]); simpl.
  - rewrite getNext_scan, Hl by done. simpl.
    assert (stor_ = ∅) as ->.
    { assert (empty stor_ = true) as He
        by (by apply (pruned_empty_iff stor_ Hpr)).
      by apply bool_decide_eq_true in He. }
    by rewrite Z.add_0_r, app_nil_r.
  - rewrite (getNext_good_line q ln lines _ Hf Hl Hrow). simpl.
    pose proof (key_of_msgs filterPath _ _ _ Hm) as Hk.
    assert (queued stor_ (defClass def) (filterPath (fileName m))
            = def :: filter (λ d, key_of d
                = Some (defClass def, filterPath (fileName m))) defs) as Hq0.
    { by rewrite Hq, filter_cons, decide_True. }
    destruct (lookup_queued_cons filterPath _ _ _ _ _ Hq0)
      as (s1 & Hl1 & Hq1 & Hoth).
    rewrite Hl1, Hrow. simpl.
    rewrite (IH k (mkParser lines false (lineno_ q + 1) (hasError_ q) (cerr q))
               s1 _ _ eq_refl eq_refl
               (pruned_lookup filterPath _ _ _ _ _ Hpr Hl1));
      [| |simpl in Hn; lia].
    + simpl. rewrite <- app_assoc. simpl.
      by replace (lineno_ q + 1 + Z.of_nat (length lines))%Z
        with (lineno_ q + Z.of_nat (S (length lines)))%Z by lia.
    + intros c p.
      destruct (decide ((c, p) = (defClass def, filterPath (fileName m))))
        as [[= -> ->]|Hne]; [done|].
      rewrite Hoth, Hq, filter_cons by done.
      by rewrite decide_False by congruence.
Qed.

(** X8.  When the query stream asks for the defects read, one line for each
    and in the same order (each line naming the class and the file name of
    the first message of its defect), [main] writes every defect out linked
    with the identifier of its line, in that order, leaves no query
    unmatched and no defect queued, and writes nothing to [std::cerr]. *)
Theorem main_links_in_order inp :
  argc inp = 4%Z → defListOpens inp = true →
  Forall2 (λ def ln, ∃ n m ms, msgs def = m :: ms ∧
             line_row ln = Some (mkQRow n (defClass def) (fileName m)))
          (defParserYields inp) (stdin inp) →
  ∃ r, main inp = Returns r ∧
    cout r = zip_with (λ def row, Linkified def (cid row))
                      (defParserYields inp) (omap line_row (stdin inp)) ∧
    unmatched r = [] ∧ residual r = ∅ ∧ cerr (qParser r) = [].
Proof.
  intros Hargc Hopen Hall. unfold Linkify.main.
  rewrite decide_False, Hopen by (by intros ?). simpl negb. cbv iota.
  assert (Forall (λ def, msgs def ≠ []) (defParserYields inp)) as Hmsgs.
  { clear -Hall. induction Hall as [|???? (n & m & ms & Hm & _)];
      constructor; [by rewrite Hm|done]. }
  destruct (hashAll_reachable filterPath _ ∅ (reach_init filterPath) Hmsgs)
    as (stor0 & Hh & Hr). rewrite Hh.
  rewrite (queryLoop_in_order _ _ Hall); try done.
  - eexists. split; [done|]. simpl. by rewrite app_nil_r.
  - by apply reachable_pruned in Hr.
  - intros c p. rewrite (hashAll_queued filterPath _ _ _ _ _ Hh).
    unfold queued. by rewrite lookup_empty.
  - simpl. lia.
Qed.

End MainMoreFacts.

(** ** Texts: fields and escaping *)

Section TextFacts.

Import Linkify.

Lemma append_cons x (a b : string) : String x a +:+ b = String x (a +:+ b).
Proof. done. Qed.

Lemma append_assoc (a b c : string) : (a +:+ b) +:+ c = a +:+ (b +:+ c).
Proof. induction a as [|x a IH]; [done|]. by rewrite !append_cons, IH. Qed.

Lemma contains_append c (a b : string) :
  Text.contains c (a +:+ b) = Text.contains c a || Text.contains c b.
Proof.
  induction a as [|x a IH]; [done|].
  rewrite append_cons. simpl. by rewrite IH, orb_assoc.
Qed.

(** *** Splitting *)

Lemma split_non_empty sep s : Text.split sep s ≠ [].
Proof.
  destruct s as [|c s]; simpl; [done|].
  case_decide; [done|]. by destruct (Text.split sep s).
Qed.

Lemma split_tokens_without_sep sep s :
  Forall (λ tok, Text.contains sep tok = false) (Text.split sep s).
Proof.
  induction s as [|c s IH]; simpl; [by repeat constructor|].
  case_decide as Hc; [by constructor|].
  destruct (Text.split sep s) as [|tok toks]; simpl.
  - repeat constructor. simpl. by rewrite bool_decide_eq_false_2.
  - apply Forall_cons in IH as [Htok Htoks]. constructor; [|done].
    simpl. by rewrite bool_decide_eq_false_2.
Qed.

Lemma split_whole sep s :
  Text.contains sep s = false → Text.split sep s = [s].
Proof.
  induction s as [|c s IH]; simpl; [done|].
  intros [Hc Hs]%orb_false_elim. apply bool_decide_eq_false in Hc.
  by rewrite decide_False, IH by done.
Qed.

Lemma split_field sep (a b : string) :
  Text.contains sep a = false →
  Text.split sep (a +:+ String sep b) = a :: Text.split sep b.
Proof.
  induction a as [|c a IH]; [rewrite ?append_cons|rewrite append_cons]; simpl.
  - intros _. by rewrite decide_True.
  - intros [Hc Ha]%orb_false_elim. apply bool_decide_eq_false in Hc.
    by rewrite decide_False, IH by done.
Qed.

(** *** Integers *)

Lemma digit_of_not_comma c n : Text.digit_of c = Some n → c ≠ ","%char.
Proof. by intros H ->. Qed.

Lemma digits_from_no_comma acc s n :
  Text.digits_from acc s = Some n → Text.contains "," s = false.
Proof.
  revert acc. induction s as [|c s IH]; intros acc; simpl; [done|].
  destruct (Text.digit_of c) as [d|] eqn:Hd; [|done].
  intros H. rewrite (IH _ H), orb_false_r.
  apply bool_decide_eq_false. by eapply digit_of_not_comma.
Qed.

Lemma unsigned_decimal_no_comma s n :
  Text.unsigned_decimal s = Some n → Text.contains "," s = false.
Proof. destruct s; [done|]. apply digits_from_no_comma. Qed.

Lemma lexical_cast_int_no_comma s n :
  Text.lexical_cast_int s = Some n → Text.contains "," s = false.
Proof.
  unfold Text.lexical_cast_int. intros H.
  assert (∀ z, (Text.unsigned_decimal s ≫= z) = Some n
               → Text.contains "," s = false) as Hplain.
  { intros z Hz. destruct (Text.unsigned_decimal s) eqn:Hu; [|done].
    by eapply unsigned_decimal_no_comma. }
  destruct s as [|c s']; [done|].
  destruct (decide (c = "-"%char)) as [->|Hm];
    [|destruct (decide (c = "+"%char)) as [->|Hp]].
  - destruct (Text.unsigned_decimal s') eqn:Hu; [|done].
    simpl. by eapply unsigned_decimal_no_comma.
  - destruct (Text.unsigned_decimal s') eqn:Hu; [|done].
    simpl. by eapply unsigned_decimal_no_comma.
  - apply (Hplain (Text.in_int_range)).
    destruct c as [[] [] [] [] [] [] [] []]; try done.
Qed.

(** *** Query lines *)

Lemma line_row_no_comma ln row :
  line_row ln = Some row →
  Text.contains "," (qDefClass row) = false ∧
  Text.contains "," (qFileName row) = false.
Proof.
  unfold line_row. pose proof (split_tokens_without_sep "," ln) as Hall.
  destruct (Text.split "," ln) as [|t0 [|t1 [|t2 ts]]]; try done.
  destruct (Text.lexical_cast_int t0); [|done]. intros [= <-]. simpl.
  apply Forall_cons in Hall as [_ Hall].
  apply Forall_cons in Hall as [H1 Hall].
  by apply Forall_cons in Hall as [H2 _].
Qed.

Lemma scan_Some_line lines lineno err log row q' :
  scan lines lineno err log = (Some row, q') →
  ∃ ln, ln ∈ lines ∧ line_row ln = Some row.
Proof.
  revert lineno err log. induction lines as [|ln rest IH]; intros lineno err log;
    simpl; [done|].
  destruct (line_row ln) as [r|] eqn:Hr.
  - intros [= -> _]. exists ln. split; [by left|done].
  - intros (l & Hin & Hl)%IH. exists l. split; [by right|done].
Qed.

Lemma line_row_fields t0 n cls file tail :
  Text.lexical_cast_int t0 = Some n →
  Text.contains "," cls = false →
  Text.split "," tail = [file] ∨
    (∃ more, Text.split "," tail = file :: more) →
  line_row (t0 +:+ "," +:+ cls +:+ "," +:+ tail) = Some (mkQRow n cls file).
Proof.
  intros Hn Hcls Htail. unfold line_row.
  change ("," +:+ cls +:+ "," +:+ tail)
    with (String ","%char (cls +:+ String ","%char tail)).
  rewrite split_field by (by eapply lexical_cast_int_no_comma).
  rewrite split_field by done.
  destruct Htail as [->|[more ->]]; by rewrite Hn.
Qed.

(** X9.  The two text fields of a query never contain a comma, so a class
    or a file name with a comma in it cannot be asked for.  The other way
    round, a line made of a text that reads as an integer, a class and a
    file name without commas, joined by commas, is read back as that
    integer, class and file name, also when further comma-separated fields
    follow. *)
Theorem query_fields_and_commas :
  (∀ q row q', getNext q = (Some row, q') →
     Text.contains "," (qDefClass row) = false ∧
     Text.contains "," (qFileName row) = false) ∧
  (∀ q rest t0 n cls file,
     cin_fail q = false →
     Text.lexical_cast_int t0 = Some n →
     Text.contains "," cls = false → Text.contains "," file = false →
     (cin_lines q = (t0 +:+ "," +:+ cls +:+ "," +:+ file) :: rest →
      getNext q
      = (Some (mkQRow n cls file),
         mkParser rest false (lineno_ q + 1) (hasError_ q) (cerr q))) ∧
     (∀ extra,
        cin_lines q
        = (t0 +:+ "," +:+ cls +:+ "," +:+ file +:+ "," +:+ extra) :: rest →
        getNext q
        = (Some (mkQRow n cls file),
           mkParser rest false (lineno_ q + 1) (hasError_ q) (cerr q)))).
Proof.
  split.
  - intros q row q' Hg. destruct (cin_fail q) eqn:Hf.
    { by rewrite getNext_failed in Hg. }
    rewrite getNext_scan in Hg by done.
    apply scan_Some_line in Hg as (ln & _ & Hrow).
    by eapply line_row_no_comma.
  - intros q rest t0 n cls file Hf Hn Hcls Hfile. split.
    + intros Hl. apply (getNext_good_line q _ rest _ Hf Hl).
      apply line_row_fields; [done|done|]. left. by apply split_whole.
    + intros extra Hl. apply (getNext_good_line q _ rest _ Hf Hl).
      apply line_row_fields; [done|done|]. right.
      change ("," +:+ extra) with (String ","%char extra).
      rewrite split_field by done. by eexists.
Qed.

(** *** Escaping *)

Lemma replace_all_append c fmt (a b : string) :
  replace_all c fmt (a +:+ b) = replace_all c fmt a +:+ replace_all c fmt b.
Proof.
  induction a as [|x a IH]; [done|]. rewrite append_cons. simpl.
  case_decide; by rewrite IH, ?append_assoc.
Qed.

Lemma writeEscaped_append (a b : string) :
  writeEscaped (a +:+ b) = writeEscaped a +:+ writeEscaped b.
Proof. unfold writeEscaped. by rewrite !replace_all_append. Qed.

Lemma writeEscaped_char c : writeEscaped (String c "") = escaped_char c.
Proof. destruct c as [[] [] [] [] [] [] [] []]; reflexivity. Qed.

Lemma writeEscaped_cons c (t : string) :
  writeEscaped (String c t) = escaped_char c +:+ writeEscaped t.
Proof.
  change (String c t) with (String c "" +:+ t).
  by rewrite writeEscaped_append, writeEscaped_char.
Qed.

Lemma escaped_char_clean c :
  Text.contains quot (escaped_char c) = false ∧
  Text.contains apos (escaped_char c) = false ∧
  Text.contains lt (escaped_char c) = false ∧
  Text.contains gt (escaped_char c) = false.
Proof. destruct c as [[] [] [] [] [] [] [] []]; done. Qed.

Lemma escaped_char_plain c :
  c ≠ amp → c ≠ quot → c ≠ apos → c ≠ lt → c ≠ gt →
  escaped_char c = String c "".
Proof. intros. unfold escaped_char. by repeat case_decide. Qed.

Lemma unescape_escaped_char c (r : string) :
  unescape (escaped_char c +:+ r) = String c (unescape r).
Proof. destruct c as [[] [] [] [] [] [] [] []]; reflexivity. Qed.

(** X10.  The five replacements of [writeEscaped], done one after the other
    over the whole text, come to escaping each character on its own: the
    ampersands put in by the first replacement are not escaped again by the
    later ones.  So the escaped form of a text is the escaped forms of its
    parts put together, a text without any of the five characters comes out
    as it is, and the output never contains a double quote, an apostrophe,
    a less-than or a greater-than sign. *)
Theorem writeEscaped_character_by_character :
  (∀ c t, writeEscaped (String c t) = escaped_char c +:+ writeEscaped t) ∧
  (∀ a b, writeEscaped (a +:+ b) = writeEscaped a +:+ writeEscaped b) ∧
  (∀ t, Text.contains amp t = false → Text.contains quot t = false →
        Text.contains apos t = false → Text.contains lt t = false →
        Text.contains gt t = false → writeEscaped t = t) ∧
  (∀ t, Text.contains quot (writeEscaped t) = false ∧
        Text.contains apos (writeEscaped t) = false ∧
        Text.contains lt (writeEscaped t) = false ∧
        Text.contains gt (writeEscaped t) = false).
Proof.
  split; [apply writeEscaped_cons|]. split; [apply writeEscaped_append|]. split.
  - induction t as [|c t IH]; [done|]. simpl.
    intros [Hc1 Ht1]%orb_false_elim [Hc2 Ht2]%orb_false_elim
           [Hc3 Ht3]%orb_false_elim [Hc4 Ht4]%orb_false_elim
           [Hc5 Ht5]%orb_false_elim.
    apply bool_decide_eq_false in Hc1, Hc2, Hc3, Hc4, Hc5.
    rewrite writeEscaped_cons, IH by done.
    by rewrite escaped_char_plain.
  - induction t as [|c t (I1 & I2 & I3 & I4)]; [done|].
    rewrite writeEscaped_cons, !contains_append, I1, I2, I3, I4.
    by destruct (escaped_char_clean c) as (-> & -> & -> & ->).
Qed.

(** X11.  Escaping loses nothing: reading the entities of an escaped text
    back gives the text, so two different texts never have the same escaped
    form. *)
Theorem writeEscaped_reads_back :
  (∀ t, unescape (writeEscaped t) = t) ∧
  (∀ a b, writeEscaped a = writeEscaped b → a = b).
Proof.
  assert (∀ t, unescape (writeEscaped t) = t) as Hback.
  { induction t as [|c t IH]; [done|].
    by rewrite writeEscaped_cons, unescape_escaped_char, IH. }
  split; [done|]. intros a b Hab.
  by rewrite <- (Hback a), <- (Hback b), Hab.
Qed.

End TextFacts.

(** ** Decoding whole documents *)

Section DecodingFacts.

Import ParserJson.

Context {Foreign : Type}.
Variable postProc : Defect → Defect.
Variable foreignInit :
  DecoderKind → ptree → ptree → TScanProps * option string * Foreign.
Variable foreignReadNode : Foreign → Defect → Thrown bool * Defect * Foreign.

Local Abbreviation JsonParser_new := (ParserJson.JsonParser_new foreignInit).
Local Abbreviation getNext_loop :=
  (ParserJson.getNext_loop postProc foreignReadNode).
Local Abbreviation readAll := (ParserJson.readAll postProc foreignReadNode).

Lemma valueOf_string_found node key :
  valueOf_string node key "" ≠ "" → is_Some (find key (children node)).
Proof.
  unfold valueOf_string. destruct (find key (children node)); [by eauto|done].
Qed.

Lemma scReadEvent_level pEvt evtNode :
  valueOf_string evtNode "level" "" ≠ "" →
  ∃ evt, scReadEvent pEvt evtNode = (true, evt) ∧
    event evt = valueOf_string evtNode "level" "".
Proof.
  intros Hk. unfold scReadEvent. rewrite decide_False by done.
  eexists. split; [done|]. by case_decide.
Qed.

Lemma ShellCheckTreeDecoder_readNode_level k defNode rest def0 :
  valueOf_string defNode "level" "" ≠ "" →
  ShellCheckTreeDecoder_readNode postProc (Some ((k, defNode) :: rest)) def0
  = (true, postProc (sc_assembled defNode), Some rest).
Proof.
  intros Hk. unfold ShellCheckTreeDecoder_readNode, sc_assembled. simpl.
  by destruct (scReadEvent_level DefEvent_new _ Hk) as (evt & -> & _).
Qed.

(** The callers' loop over records that all have a kind (a level): one
    defect per record, in order, then the end of the sequence. *)
Lemma readAll_Gcc_all inner rounds (d : Private) items seen :
  decoder d = Some (Gcc (Some items)) →
  Forall (λ item, valueOf_string item.2 "kind" "" ≠ "") items →
  length items < rounds →
  readAll (S inner) rounds d seen
  = Returns (seen ++ ((λ item, postProc (gcc_assembled item.2)) <$> items),
             mkPrivate (input d) (Some (Gcc (Some []))) (root d)
                       (defNumber d + Z.of_nat (length items))%Z (scanProps d)
                       (cerr d)).
Proof.
  intros Hd Hall. revert d rounds seen Hd.
  induction Hall as [|[k0 n0] items Hk0 _ IH]; intros d rounds seen Hd Hn;
    (destruct rounds as [|n]; [simpl in Hn; lia|]);
    rewrite readAll_S, (getNext_loop_Gcc _ _ _ _ _ Hd).
  - simpl. by rewrite app_nil_r, Z.add_0_r.
  - rewrite GccTreeDecoder_readNode_kind by done.
    rewrite IH; [|done|simpl in Hn; lia]. simpl.
    rewrite <- app_assoc. do 3 f_equal. lia.
Qed.

Lemma readAll_ShellCheck_all inner rounds (d : Private) items seen :
  decoder d = Some (ShellCheck (Some items)) →
  Forall (λ item, valueOf_string item.2 "level" "" ≠ "") items →
  length items < rounds →
  readAll (S inner) rounds d seen
  = Returns (seen ++ ((λ item, postProc (sc_assembled item.2)) <$> items),
             mkPrivate (input d) (Some (ShellCheck (Some []))) (root d)
                       (defNumber d + Z.of_nat (length items))%Z (scanProps d)
                       (cerr d)).
Proof.
  intros Hd Hall. revert d rounds seen Hd.
  induction Hall as [|[k0 n0] items Hk0 _ IH]; intros d rounds seen Hd Hn;
    (destruct rounds as [|n]; [simpl in Hn; lia|]);
    rewrite readAll_S, (getNext_loop_ShellCheck _ _ _ _ _ Hd).
  - simpl. by rewrite app_nil_r, Z.add_0_r.
  - rewrite ShellCheckTreeDecoder_readNode_level by done.
    rewrite IH; [|done|simpl in Hn; lia]. simpl.
    rewrite <- app_assoc. do 3 f_equal. lia.
Qed.

(** X12.  A document without a "defects", "issues", "runs" or "comments"
    member whose records all have a kind is decoded by the GCC decoder
    completely: the callers' loop handles one defect per record, in document
    order, each the post-processor's image of what the record holds; no
    error is flagged, [defNumber] ends as the number of records, and from
    then on [getNext] keeps returning [false] without changing anything. *)
Theorem gcc_document_decoded_in_order stream root inner rounds :
  children root ≠ [] →
  findChildOf root "defects" = None → findChildOf root "issues" = None →
  findChildOf root "runs" = None → findChildOf root "comments" = None →
  Forall (λ item, valueOf_string item.2 "kind" "" ≠ "") (children root) →
  length (children root) < rounds →
  ∃ d' : Private,
    readAll (S inner) rounds (JsonParser_new stream (Parsed root)) []
    = Returns ((λ item, postProc (gcc_assembled item.2)) <$> children root,
               d') ∧
    input d' = stream ∧ cerr d' = [] ∧
    defNumber d' = Z.of_nat (length (children root)) ∧
    getNext_loop (S inner) d' = Returns (false, Defect_new "", d').
Proof.
  intros Hne H1 H2 H3 H4 Hall Hn.
  destruct (children root) as [|[k first] rest] eqn:Hc; [done|].
  assert (JsonParser_new stream (Parsed root)
          = mkPrivate stream (Some (Gcc (Some ((k, first) :: rest)))) root 0 ∅ [])
    as ->.
  { unfold ParserJson.JsonParser_new, recognize. rewrite Hc, H1, H2, H3, H4.
    apply Forall_cons in Hall as [[x Hx]%valueOf_string_found _].
    simpl in Hx. rewrite Hx. simpl. unfold readRoot. by rewrite Hc. }
  eexists. split.
  { erewrite readAll_Gcc_all; [|reflexivity|exact Hall|exact Hn].
    simpl. reflexivity. }
  by simpl.
Qed.

(** X13.  A document without a "defects", "issues" or "runs" member that
    has a "comments" member whose records all have a level is decoded by
    the ShellCheck decoder completely, one defect with one event per record,
    in document order, with no error flagged; an empty "comments" list gives
    no defect and no error. *)
Theorem shellcheck_document_decoded_in_order stream root node inner rounds :
  findChildOf root "defects" = None → findChildOf root "issues" = None →
  findChildOf root "runs" = None → findChildOf root "comments" = Some node →
  Forall (λ item, valueOf_string item.2 "level" "" ≠ "") (children node) →
  length (children node) < rounds →
  ∃ d' : Private,
    readAll (S inner) rounds (JsonParser_new stream (Parsed root)) []
    = Returns ((λ item, postProc (sc_assembled item.2)) <$> children node,
               d') ∧
    input d' = stream ∧ cerr d' = [] ∧
    defNumber d' = Z.of_nat (length (children node)) ∧
    getNext_loop (S inner) d' = Returns (false, Defect_new "", d').
Proof.
  intros H1 H2 H3 H4 Hall Hn.
  assert (JsonParser_new stream (Parsed root)
          = mkPrivate stream (Some (ShellCheck (Some (children node)))) root
                      0 ∅ []) as ->.
  { unfold ParserJson.JsonParser_new, recognize.
    destruct (children root) as [|[k first] rest] eqn:Hc.
    { unfold findChildOf in H4. by rewrite Hc in H4. }
    by rewrite H1, H2, H3, H4. }
  eexists. split.
  { erewrite readAll_ShellCheck_all; [|reflexivity|exact Hall|exact Hn].
    simpl. reflexivity. }
  by simpl.
Qed.

Lemma readAll_ShellCheck_empty_level inner rounds (d : Private)
    pre k bad post seen :
  decoder d = Some (ShellCheck (Some (pre ++ (k, bad) :: post))) →
  Forall (λ item, valueOf_string item.2 "level" "" ≠ "") pre →
  valueOf_string bad "level" "" = "" →
  length pre < rounds →
  readAll (S inner) rounds d seen
  = Returns (seen ++ ((λ item, postProc (sc_assembled item.2)) <$> pre),
             mkPrivate (input d) (Some (ShellCheck (Some post))) (root d)
                       (defNumber d + Z.of_nat (length pre))%Z (scanProps d)
                       (cerr d)).
Proof.
  intros Hd Hpre Hbad. revert d rounds seen Hd.
  induction Hpre as [|[k0 n0] pre Hk0 _ IH]; intros d rounds seen Hd Hn;
    (destruct rounds as [|n]; [simpl in Hn; lia|]);
    rewrite readAll_S, (getNext_loop_ShellCheck _ _ _ _ _ Hd); simpl app.
  - rewrite ShellCheckTreeDecoder_readNode_no_level by done. simpl.
    by rewrite app_nil_r, Z.add_0_r.
  - rewrite ShellCheckTreeDecoder_readNode_level by done.
    rewrite IH; [|done|simpl in Hn; lia]. simpl.
    rewrite <- app_assoc. do 3 f_equal. lia.
Qed.

(** X18.  With either decoder of this file, the callers' loop handles the
    defects of the records up to the first one without a kind (a level) and
    ends there: the records behind it stay unread behind the cursor,
    [defNumber] counts the defects handled, and neither the error flag nor
    [std::cerr] shows that anything was left out. *)
Theorem decoding_ends_at_first_record_without_kind inner rounds (d : Private)
    pre k bad post seen :
  length pre < rounds →
  (decoder d = Some (Gcc (Some (pre ++ (k, bad) :: post))) →
   Forall (λ item, valueOf_string item.2 "kind" "" ≠ "") pre →
   valueOf_string bad "kind" "" = "" →
   readAll (S inner) rounds d seen
   = Returns (seen ++ ((λ item, postProc (gcc_assembled item.2)) <$> pre),
              mkPrivate (input d) (Some (Gcc (Some post))) (root d)
                        (defNumber d + Z.of_nat (length pre))%Z (scanProps d)
                        (cerr d))) ∧
  (decoder d = Some (ShellCheck (Some (pre ++ (k, bad) :: post))) →
   Forall (λ item, valueOf_string item.2 "level" "" ≠ "") pre →
   valueOf_string bad "level" "" = "" →
   readAll (S inner) rounds d seen
   = Returns (seen ++ ((λ item, postProc (sc_assembled item.2)) <$> pre),
              mkPrivate (input d) (Some (ShellCheck (Some post))) (root d)
                        (defNumber d + Z.of_nat (length pre))%Z (scanProps d)
                        (cerr d))).
Proof.
  intros Hn. split; intros Hd Hpre Hbad.
  - by eapply readAll_Gcc_empty_kind.
  - by eapply readAll_ShellCheck_empty_level.
Qed.

(** *** What a decoded defect looks like *)

Lemma gccReadEvent_true pEvt evtNode evt :
  gccReadEvent pEvt evtNode = (true, evt) →
  valueOf_string evtNode "kind" "" ≠ "" ∧
  event evt = valueOf_string evtNode "kind" "".
Proof.
  intros H. destruct (decide (valueOf_string evtNode "kind" "" = "")) as [Hk|Hk].
  - by rewrite gccReadEvent_no_kind in H.
  - split; [done|].
    destruct (gccReadEvent_kind pEvt _ Hk) as (e & He & Hev). congruence.
Qed.

Lemma child_event_Some item evt :
  child_event item = Some evt → event evt ≠ "".
Proof.
  unfold child_event.
  destruct (gccReadEvent DefEvent_new item.2) as [[] e] eqn:He; [|done].
  intros [= <-]. apply gccReadEvent_true in He as [? ->]. done.
Qed.

Lemma omap_length_le {A B} (f : A → option B) l :
  length (omap f l) ≤ length l.
Proof.
  induction l as [|x l IH]; [done|].
  change (omap f (x :: l))
    with (match f x with Some y => y :: omap f l | None => omap f l end).
  destruct (f x); simpl; lia.
Qed.

(** X14.  [GccTreeDecoder::readNode] returns [true] exactly when the cursor
    stands on a record with a non-empty kind, and [false] when the cursor
    was never placed, is at the end, or stands on a record without a kind;
    in each case but the first two it moves past the record.  The defect it
    hands to the post-processor has the class "COMPILER_WARNING", starts
    with the key event of the record's kind, has no event with an empty
    kind, and has at most one event more than the record has children. *)
Theorem gcc_readNode_outcomes cur def0 :
  (∀ def cur', GccTreeDecoder_readNode postProc cur def0 = (true, def, cur') →
     ∃ k defNode rest, cur = Some ((k, defNode) :: rest) ∧ cur' = Some rest ∧
       valueOf_string defNode "kind" "" ≠ "" ∧
       def = postProc (gcc_assembled defNode)) ∧
  (∀ def cur', GccTreeDecoder_readNode postProc cur def0 = (false, def, cur') →
     cur' = cur ∧ def = def0 ∧ (cur = None ∨ cur = Some []) ∨
     ∃ k defNode rest, cur = Some ((k, defNode) :: rest) ∧ cur' = Some rest ∧
       valueOf_string defNode "kind" "" = "") ∧
  (∀ defNode, valueOf_string defNode "kind" "" ≠ "" →
     defClass (gcc_assembled defNode) = "COMPILER_WARNING" ∧
     (∃ keyEvt more, events (gcc_assembled defNode) = keyEvt :: more ∧
        event keyEvt = valueOf_string defNode "kind" "") ∧
     Forall (λ evt, event evt ≠ "") (events (gcc_assembled defNode)) ∧
     length (events (gcc_assembled defNode))
     ≤ 1 + length (match findChildOf defNode "children" with
                   | Some kids => children kids
                   | None => []
                   end)).
Proof.
  split; [|split].
  - intros def cur'. destruct cur as [[|[k defNode] rest]|]; try done.
    destruct (decide (valueOf_string defNode "kind" "" = "")) as [Hk|Hk].
    + by rewrite GccTreeDecoder_readNode_no_kind.
    + rewrite GccTreeDecoder_readNode_kind by done. intros [= <- <-].
      by exists k, defNode, rest.
  - intros def cur'. destruct cur as [[|[k defNode] rest]|].
    + intros [= <- <-]. left. eauto.
    + destruct (decide (valueOf_string defNode "kind" "" = "")) as [Hk|Hk].
      * rewrite GccTreeDecoder_readNode_no_kind by done. intros [= <- <-].
        right. by exists k, defNode, rest.
      * by rewrite GccTreeDecoder_readNode_kind.
    + intros [= <- <-]. left. eauto.
  - intros defNode Hk. unfold gcc_assembled. simpl.
    destruct (gccReadEvent_kind DefEvent_new _ Hk) as (evt & He & Hev).
    rewrite He. simpl. split; [done|]. split; [by eauto|]. split.
    + constructor; [by rewrite Hev|]. apply Forall_forall.
      intros e (item & _ & Hi)%list_elem_of_omap. by eapply child_event_Some.
    + pose proof (omap_length_le child_event
        (match findChildOf defNode "children" with
         | Some kids => children kids
         | None => []
         end)). lia.
Qed.

(** X15.  [scReadEvent] rejects a node without a level.  A node with one is
    read into an event of that level whose file name is the "file" member
    or "<unknown>" without one, whose line and column are the "line" and
    "byte-column" members or 0 when the member is missing or is not an
    integer, and whose message is the "message" member or "<unknown>"
    without one, followed by the code as " [SC...]" when the code is not
    empty.  The defect assembled from the node has this event and no
    other. *)
Theorem shellcheck_field_mapping evtNode :
  (valueOf_string evtNode "level" "" = "" →
     (scReadEvent DefEvent_new evtNode).1 = false) ∧
  (valueOf_string evtNode "level" "" ≠ "" →
     ∃ evt, scReadEvent DefEvent_new evtNode = (true, evt) ∧
       events (sc_assembled evtNode) = [evt] ∧
       event evt = valueOf_string evtNode "level" "" ∧
       fileName evt = valueOf_string evtNode "file" "<unknown>" ∧
       (find "file" (children evtNode) = None → fileName evt = "<unknown>") ∧
       (∀ key, key = "line" ∨ key = "byte-column" →
          find key (children evtNode) = None ∨
          (∃ child, find key (children evtNode) = Some child ∧
                    int_of_data (data child) = None) →
          valueOf_int evtNode key 0 = 0%Z) ∧
       line evt = valueOf_int evtNode "line" 0 ∧
       column evt = valueOf_int evtNode "byte-column" 0 ∧
       (find "message" (children evtNode) = None →
          valueOf_string evtNode "message" "<unknown>" = "<unknown>") ∧
       (valueOf_string evtNode "code" "" = "" →
          msg evt = valueOf_string evtNode "message" "<unknown>") ∧
       (valueOf_string evtNode "code" "" ≠ "" →
          msg evt = valueOf_string evtNode "message" "<unknown>"
                    +:+ " [SC" +:+ valueOf_string evtNode "code" "" +:+ "]")).
Proof.
  split.
  - intros Hk. by rewrite scReadEvent_no_level.
  - intros Hk. unfold sc_assembled, scReadEvent.
    rewrite decide_False by done. eexists. split; [reflexivity|].
    split; [done|].
    destruct (decide (valueOf_string evtNode "code" "" = "")) as [Hc|Hc];
      simpl; repeat split; try done;
      try (unfold valueOf_string; by intros ->);
      try (intros key _ [Hnone|(child & Hsome & Hint)]; unfold valueOf_int;
           [by rewrite Hnone|by rewrite Hsome, Hint]).
Qed.

(** *** Recovery and its limits *)

(** X16.  When the [readNode] of a decoder throws a number of times in a
    row and then returns, one call of [getNext] comes back with what it
    returned.  Each throw sets the error flag of the input stream and,
    unless the stream is silent, writes one message carrying the number of
    defects read so far, which the throws do not change; in silent mode
    nothing is written and the flag is set all the same. *)
Theorem getNext_recovers_from_throws (d : Private) kind st whats st'
    ok def st'' rounds :
  decoder d = Some (Other kind st) →
  throwsInARow foreignReadNode st whats st' →
  foreignReadNode st' (Defect_new "") = (Value ok, def, st'') →
  getNext_loop (length whats + S rounds) d
  = Returns (ok, def,
             mkPrivate
               (mkInStream (silent (input d))
                           (anyError (input d) || bool_decide (whats ≠ []))
                           (handled (input d)))
               (Some (Other kind st'')) (root d)
               (if ok then (defNumber d + 1)%Z else defNumber d)
               (scanProps d)
               (cerr d ++ if silent (input d) then []
                          else DataError (defNumber d) <$> whats)).
Proof.
  intros Hd Hthrows Hret. revert d Hd.
  induction Hthrows as [st|st what def1 st1 whats st' Hthrow _ IH];
    intros d Hd; simpl; rewrite Hd; simpl.
  - rewrite Hret. destruct (input d) as [sil err hd]; simpl.
    rewrite orb_false_r. by destruct sil; rewrite app_nil_r.
  - rewrite Hthrow, (IH Hret); [|done].
    destruct (input d) as [sil err hd]; simpl.
    rewrite orb_true_r. destruct sil; [done|]. simpl.
    by rewrite <- app_assoc.
Qed.

Lemma getNext_loop_Undefined rounds (d : Private) :
  getNext_loop rounds d = Undefined → decoder d = None.
Proof.
  revert d. induction rounds as [|n IH]; intros d; simpl; [done|].
  destruct (decoder d) as [dec|] eqn:Hd; [|done].
  destruct (readNode postProc foreignReadNode dec (Defect_new ""))
    as [[[ok|what] def] dec']; [done|].
  by intros ?%IH.
Qed.

(** X17.  The constructor leaves the parser without a decoder in three
    cases only: the document does not parse, its root has children but none
    of the markers, or its root has no children.  In the first the parser's
    message and line are handed to the input stream and the error flag is
    set; in the second the same happens with "unknown JSON format"; in the
    third the input stream is left exactly as it was, flag and all, and
    nothing else is recorded either.  [getNext] reaches the call through the
    null [decoder] exactly when the parser has no decoder. *)
Theorem missing_decoder stream doc :
  let d : Private := JsonParser_new stream doc in
  (decoder d = None ↔
     (∃ message line, doc = ParserError message line) ∨
     (∃ root, doc = Parsed root ∧
        (children root = [] ∨
         ∃ k first rest, children root = (k, first) :: rest ∧
                         recognize root first = None))) ∧
  (∀ message line, doc = ParserError message line →
     d = mkPrivate (mkInStream (silent stream) true
                               (handled stream ++ [(message, line)]))
                   None (Node "" []) 0 ∅ []) ∧
  (∀ root k first rest, doc = Parsed root →
     children root = (k, first) :: rest → recognize root first = None →
     d = mkPrivate (mkInStream (silent stream) true
                               (handled stream ++ [("unknown JSON format", 0%Z)]))
                   None root 0 ∅ []) ∧
  (∀ root, doc = Parsed root → children root = [] →
     d = mkPrivate stream None root 0 ∅ [] ∧ hasError d = anyError stream) ∧
  (∀ rounds, getNext_loop (S rounds) d = Undefined ↔ decoder d = None).
Proof.
  intros d. split; [|split; [|split; [|split]]].
  - unfold d, ParserJson.JsonParser_new. destruct doc as [root|message line].
    + destruct (children root) as [|[k first] rest] eqn:Hc.
      * split; [|done]. intros _. right. exists root. by eauto.
      * destruct (recognize root first) as [[kd node]|] eqn:Hr.
        -- destruct (startDecoder foreignInit kd root node) as [[dec pr] th].
           split; [done|].
           intros [(? & ? & [=])|(r & [= <-] & [Hnil|(k' & f' & r' & Heq & Hn)])].
           ++ by rewrite Hc in Hnil.
           ++ rewrite Hc in Heq. injection Heq as <- <- <-. congruence.
        -- split; [|done]. intros _. right. exists root. split; [done|].
           right. by exists k, first, rest.
    + split; [|done]. intros _. left. by eauto.
  - intros message line ->. done.
  - intros root k first rest -> Hc Hr.
    unfold d, ParserJson.JsonParser_new. by rewrite Hc, Hr.
  - intros root -> Hc. unfold d, ParserJson.JsonParser_new. by rewrite Hc.
  - intros rounds. split; [apply getNext_loop_Undefined|].
    intros Hd. simpl. by rewrite Hd.
Qed.

End DecodingFacts.

(** ** The further properties on concrete inputs *)

Section MoreSamples.

Import Linkify.

Lemma operations_touch_one_key_witness :
  let d1 := one_msg_defect "X" "f" 1 in
  let d2 := one_msg_defect "X" "f" 2 in
  let s1 : TDefByClass := {["X" := {["f" := [d1; d2]]}]} in
  let s2 : TDefByClass := {["X" := {["f" := [d2]]}]} in
  queued s1 "X" "f" = d1 :: queued s2 "X" "f" ∧
  ∀ c' p', (c', p') ≠ ("X", keep_path "f") →
    queued s2 c' p' = queued s1 c' p'.
Proof.
  intros d1 d2 s1 s2.
  exact (proj2 (operations_touch_one_key keep_path s1) "X" "f" d1 s2 eq_refl).
Defined.

Lemma lookup_fails_iff_nothing_queued_witness :
  let s1 : TDefByClass := {["X" := {["f" := [one_msg_defect "X" "f" 1]]}]} in
  (Linkify.lookup keep_path "X" "g" s1 = NotFound
   ↔ queued s1 "X" (keep_path "g") = []) ∧
  Linkify.lookup keep_path "X" "g" s1 ≠ FrontOfEmpty.
Proof.
  intros s1. apply (lookup_fails_iff_nothing_queued keep_path s1 "X" "g").
  apply (reach_hashDefect keep_path (one_msg_defect "X" "f" 1) ∅);
    [apply reach_init|reflexivity].
Defined.

Lemma hashAll_files_by_key_witness :
  let defs := [one_msg_defect "X" "f" 1; one_msg_defect "Y" "g" 2;
               one_msg_defect "X" "f" 3] in
  ∃ stor', hashAll keep_path defs ∅ = Some stor' ∧
    queued stor' "X" "f"
    = queued ∅ "X" "f"
      ++ filter (λ def, key_of keep_path def = Some ("X", "f")) defs.
Proof.
  intros defs. eexists. split; [reflexivity|].
  apply (proj2 (proj2 (hashAll_files_by_key keep_path defs ∅))).
  reflexivity.
Defined.

Lemma getNext_skips_bad_lines_witness :
  getNext (DefQueryParser_new ["no commas"; "x,X,f"; "7,X,f"; "8,Y,g"])
  = (Some (mkQRow 7 "X" "f"),
     mkParser ["8,Y,g"] false 3 true
              [NotEnoughCommas 1; FailedToParseCID 2]).
Proof.
  assert (Forall (λ ln, line_row ln = None) ["no commas"; "x,X,f"]) as Hbad
    by (repeat constructor).
  exact (proj1 (getNext_skips_bad_lines
                  (DefQueryParser_new ["no commas"; "x,X,f"; "7,X,f"; "8,Y,g"])
                  ["no commas"; "x,X,f"] eq_refl Hbad)
               "7,X,f" ["8,Y,g"] (mkQRow 7 "X" "f") eq_refl eq_refl).
Defined.

Lemma main_conserves_defects_witness :
  ∃ r, main keep_path sample_run = Returns r ∧
    filter (λ def, key_of keep_path def = Some ("X", "f"))
           (defParserYields sample_run)
    = filter (λ def, key_of keep_path def = Some ("X", "f"))
             (linked_defs (cout r))
      ++ queued (residual r) "X" "f".
Proof.
  eexists. split; [vm_compute; reflexivity|].
  apply (main_conserves_defects keep_path sample_run _ "X" "f" eq_refl eq_refl).
  vm_compute. reflexivity.
Defined.

Lemma main_answers_each_query_witness :
  ∃ r linked, main keep_path sample_run = Returns r ∧
    cout r = linked ++ (BareCid <$> unmatched r) ∧
    Forall (λ o, ∃ def n, o = Linkified def n) linked ∧
    out_cid <$> cout r ≡ₚ cid <$> omap line_row (stdin sample_run) ∧
    unmatched r `sublist_of` omap line_row (stdin sample_run).
Proof.
  eexists.
  assert (main keep_path sample_run = Returns _) as Hm
    by (vm_compute; reflexivity).
  destruct (main_answers_each_query keep_path sample_run _ eq_refl eq_refl Hm)
    as (linked & H).
  exists linked. split; [exact Hm|exact H].
Defined.

Lemma main_never_exits_zero_witness :
  ∃ r, main keep_path sample_run = Returns r ∧ status r = 1%Z.
Proof.
  destruct (main_never_exits_zero keep_path sample_run) as (_ & Hret & Hone).
  destruct Hret as [r Hr]; [repeat constructor; discriminate|].
  exists r. split; [exact Hr|exact (Hone r Hr)].
Defined.

Lemma main_links_in_order_witness :
  let inp := mkMainInput 4 true
               [one_msg_defect "X" "f" 1; one_msg_defect "X" "f" 2]
               false ["7,X,f"; "8,X,f,more"] in
  ∃ r, main keep_path inp = Returns r ∧
    cout r = zip_with (λ def row, Linkified def (cid row))
                      (defParserYields inp) (omap line_row (stdin inp)) ∧
    unmatched r = [] ∧ residual r = ∅ ∧ cerr (qParser r) = [].
Proof.
  intros inp. apply (main_links_in_order keep_path inp eq_refl eq_refl).
  repeat constructor.
  - exists 7%Z, (mkDefMsg "f" 1 0 "m"), []. by split.
  - exists 8%Z, (mkDefMsg "f" 2 0 "m"), []. by split.
Defined.

Lemma query_fields_and_commas_witness :
  getNext (DefQueryParser_new ["-12,CLASS,dir/file.c,rest,of,line"])
  = (Some (mkQRow (-12) "CLASS" "dir/file.c"), mkParser [] false 1 false []).
Proof.
  exact (proj2 (proj2 query_fields_and_commas
                  (DefQueryParser_new ["-12,CLASS,dir/file.c,rest,of,line"])
                  [] "-12" (-12)%Z "CLASS" "dir/file.c"
                  eq_refl eq_refl eq_refl eq_refl)
               "rest,of,line" eq_refl).
Defined.

Lemma writeEscaped_character_by_character_witness :
  writeEscaped "plain text: a.c" = "plain text: a.c".
Proof.
  apply (proj1 (proj2 (proj2 writeEscaped_character_by_character)));
    reflexivity.
Defined.

Lemma writeEscaped_reads_back_witness :
  unescape (writeEscaped "a<b & 'c'") = "a<b & 'c'" ∧
  "a<b & 'c'" = unescape "a&lt;b &amp; &apos;c&apos;".
Proof.
  split; [apply (proj1 writeEscaped_reads_back)|].
  apply (proj2 writeEscaped_reads_back). reflexivity.
Defined.

End MoreSamples.

Section MoreParserSamples.

Import ParserJson.

Lemma gcc_document_decoded_in_order_witness :
  ∃ d' : Private,
    ParserJson.readAll keep_defect no_foreign_node 1 2
      (ParserJson.JsonParser_new no_foreign_init quiet_stream
         (Parsed (ptree_of_json example_document))) []
    = Returns ((λ item, keep_defect (gcc_assembled item.2))
                 <$> children (ptree_of_json example_document), d') ∧
    input d' = quiet_stream ∧ cerr d' = [] ∧
    defNumber d' = Z.of_nat (length (children (ptree_of_json example_document)))
    ∧ ParserJson.getNext_loop keep_defect no_foreign_node 1 d'
      = Returns (false, Defect_new "", d').
Proof.
  apply (gcc_document_decoded_in_order keep_defect no_foreign_init
           no_foreign_node quiet_stream (ptree_of_json example_document) 0 2);
    try reflexivity; [discriminate| |vm_compute; lia].
  repeat constructor. discriminate.
Defined.

Lemma shellcheck_document_decoded_in_order_witness :
  let comments :=
    ptree_of_json (JArray [JObject [("level", JString "warning");
                                    ("code", JNumber "2086")]]) in
  let root := Node "" [("comments", comments)] in
  ∃ d' : Private,
    ParserJson.readAll keep_defect no_foreign_node 1 2
      (ParserJson.JsonParser_new no_foreign_init quiet_stream (Parsed root)) []
    = Returns ((λ item, keep_defect (sc_assembled item.2))
                 <$> children comments, d') ∧
    input d' = quiet_stream ∧ cerr d' = [] ∧
    defNumber d' = Z.of_nat (length (children comments)) ∧
    ParserJson.getNext_loop keep_defect no_foreign_node 1 d'
    = Returns (false, Defect_new "", d').
Proof.
  intros comments root.
  apply (shellcheck_document_decoded_in_order keep_defect no_foreign_init
           no_foreign_node quiet_stream root comments 0 2);
    try reflexivity; [|vm_compute; lia].
  repeat constructor. discriminate.
Defined.

Lemma gcc_readNode_outcomes_witness :
  let defNode := ptree_of_json (JObject [("kind", JString "error")]) in
  defClass (gcc_assembled defNode) = "COMPILER_WARNING" ∧
  (∃ keyEvt more, events (gcc_assembled defNode) = keyEvt :: more ∧
     event keyEvt = valueOf_string defNode "kind" "") ∧
  Forall (λ evt, event evt ≠ "") (events (gcc_assembled defNode)) ∧
  length (events (gcc_assembled defNode))
  ≤ 1 + length (match findChildOf defNode "children" with
                | Some kids => children kids
                | None => []
                end).
Proof.
  intros defNode.
  apply (proj2 (proj2 (gcc_readNode_outcomes keep_defect None (Defect_new "")))
           defNode).
  discriminate.
Defined.

Lemma shellcheck_field_mapping_witness :
  let evtNode :=
    ptree_of_json (JObject [("level", JString "warning");
                            ("line", JString "seven");
                            ("message", JString "quote this");
                            ("code", JNumber "2086")]) in
  ∃ evt, scReadEvent DefEvent_new evtNode = (true, evt) ∧
    fileName evt = "<unknown>" ∧ line evt = 0%Z ∧ column evt = 0%Z ∧
    msg evt = "quote this [SC2086]".
Proof.
  intros evtNode.
  destruct (proj2 (shellcheck_field_mapping evtNode))
    as (evt & He & _ & _ & _ & Hfile & Hint & Hline & Hcol & _ & _ & Hmsg);
    [discriminate|].
  exists evt. split; [exact He|]. split; [by apply Hfile|].
  split; [|split].
  - rewrite Hline. apply Hint; [by left|]. right. by eexists.
  - rewrite Hcol. apply Hint; [by right|]. by left.
  - apply Hmsg. discriminate.
Defined.

Lemma getNext_recovers_from_throws_witness :
  let d : Private :=
    mkPrivate (mkInStream true false []) (Some (Other SarifTreeDecoder 2))
              (Node "" []) 5 ∅ [] in
  ParserJson.getNext_loop keep_defect countdown_node 3 d
  = Returns (false, Defect_new "",
             mkPrivate (mkInStream true true []) (Some (Other SarifTreeDecoder 0))
                       (Node "" []) 5 ∅ []).
Proof.
  intros d.
  apply (getNext_recovers_from_throws keep_defect countdown_node d
           SarifTreeDecoder 2 ["bad record"; "bad record"] 0
           false (Defect_new "") 0 0 eq_refl); [|reflexivity].
  eapply throws_more; [reflexivity|].
  eapply throws_more; [reflexivity|]. apply throws_none.
Defined.

Lemma decoding_ends_at_first_record_without_kind_witness :
  let good := ptree_of_json (JObject [("kind", JString "warning")]) in
  let bad := ptree_of_json (JObject [("message", JString "no kind")]) in
  let d : Private :=
    mkPrivate quiet_stream
              (Some (Gcc (Some ([("", good)] ++ ("", bad) :: [("", good)]))))
              (Node "" []) 0 ∅ [] in
  ParserJson.readAll keep_defect no_foreign_node 1 2 d []
  = Returns ([] ++ ((λ item, keep_defect (gcc_assembled item.2))
                      <$> [("", good)]),
             mkPrivate quiet_stream (Some (Gcc (Some [("", good)])))
                       (Node "" []) (0 + Z.of_nat 1)%Z ∅ []).
Proof.
  intros good bad d.
  apply (proj1 (decoding_ends_at_first_record_without_kind keep_defect
                  no_foreign_node 0 2 d [("", good)] "" bad [("", good)] []
                  ltac:(simpl; lia)));
    [reflexivity| |reflexivity].
  repeat constructor. discriminate.
Defined.

Lemma missing_decoder_witness :
  let failed : Private :=
    ParserJson.JsonParser_new no_foreign_init quiet_stream
                              (ParserError "expected value" 3) in
  let empty : Private :=
    ParserJson.JsonParser_new no_foreign_init quiet_stream
                              (Parsed (ptree_of_json (JObject []))) in
  let unknown : Private :=
    ParserJson.JsonParser_new no_foreign_init quiet_stream
       (Parsed (ptree_of_json (JObject [("results", JArray [])]))) in
  failed = mkPrivate (mkInStream false true [("expected value", 3%Z)])
                     None (Node "" []) 0 ∅ [] ∧
  unknown = mkPrivate (mkInStream false true [("unknown JSON format", 0%Z)])
                      None (ptree_of_json (JObject [("results", JArray [])]))
                      0 ∅ [] ∧
  (empty = mkPrivate quiet_stream None (Node "" []) 0 ∅ [] ∧
   hasError empty = false) ∧
  ParserJson.getNext_loop keep_defect no_foreign_node 1 empty = Undefined.
Proof.
  intros failed empty unknown. split; [|split; [|split]].
  - exact (proj1 (proj2 (missing_decoder keep_defect no_foreign_init
                           no_foreign_node quiet_stream
                           (ParserError "expected value" 3)))
                 "expected value" 3%Z eq_refl).
  - exact (proj1 (proj2 (proj2 (missing_decoder keep_defect no_foreign_init
                                  no_foreign_node quiet_stream
                                  (Parsed (ptree_of_json
                                     (JObject [("results", JArray [])]))))))
                 _ "results" (Node "" []) [] eq_refl eq_refl eq_refl).
  - exact (proj1 (proj2 (proj2 (proj2
             (missing_decoder keep_defect no_foreign_init no_foreign_node
                quiet_stream (Parsed (ptree_of_json (JObject [])))))))
                 _ eq_refl eq_refl).
  - apply (proj2 (proj2 (proj2 (proj2
             (missing_decoder keep_defect no_foreign_init no_foreign_node
                quiet_stream (Parsed (ptree_of_json (JObject [])))))))).
    reflexivity.
Defined.

End MoreParserSamples.
